(** * frb: candidate detection in a time-DM image

    Shallow embedding of [frb/search.py] and of the amplitude threshold
    estimator of [frb/utils.py], with the properties checked on it.

    Numbers.  The arrays of the program hold finite floating-point numbers;
    every finite float is a rational, so pixel intensities, fitted parameters,
    times and dispersion measures are values of [Q] and the arithmetic of the
    program is read as exact: rounding and overflow are outside the model,
    and no property below speaks of them.  Pixel indices, labels and pixel counts are
    [nat] or [Z].  Only the acceptance test of the ellipse search needs
    [cos] and [PI]; it is stated over [R] on the injected rationals.

    Library calls.  Calls into numpy/scipy/skimage/astropy that only move or
    compare data ([np.unique], [np.argmax], [np.lexsort], [np.mean],
    [find_objects], [maximum_position], slice assignment, DBSCAN labelling)
    are given by executable definitions following the library's documented
    behaviour.  Numerical black boxes (the Levenberg-Marquardt fit, the
    smoothing filters, the percentile, morphological opening, connected
    component labelling, the Rayleigh fit) are Section variables. *)

From Stdlib Require Import List Bool Arith ZArith QArith Qabs Lia Lra.
From Stdlib Require Import Permutation Sorted.
From Stdlib Require Import Reals Qreals.
From Stdlib Require Lqa.
Import ListNotations.

Set Implicit Arguments.

(** ** Exceptions and results *)

Inductive exn : Type :=
| NoIntensityRegionException
| UnboundLocalError
| TypeError
| ValueError.

Inductive result (A : Type) : Type :=
| Ok (a : A)
| Raise (e : exn).

Arguments Ok {A} a.
Arguments Raise {A} e.

Definition bind {A B : Type} (m : result A) (k : A -> result B) : result B :=
  match m with
  | Ok a => k a
  | Raise e => Raise e
  end.

Notation "x <- m ;; k" := (bind m (fun x => k))
  (at level 61, m at next level, right associativity).

(** ** Arrays *)

Definition image := list (list Q).

(** [a.ravel()] : the pixels in row-major order. *)
Definition ravel (a : image) : list Q := concat a.

(** [sorted(xs)] : ascending, stable. *)
Fixpoint insert_sorted (x : Q) (l : list Q) : list Q :=
  match l with
  | [] => [x]
  | y :: l' => if Qle_bool x y then x :: y :: l' else y :: insert_sorted x l'
  end.

Definition sorted (l : list Q) : list Q := fold_right insert_sorted [] l.

(** Removal of repeated neighbours: after sorting, equal values are adjacent. *)
Fixpoint dedup_adjacent (l : list Q) : list Q :=
  match l with
  | [] => []
  | x :: l' =>
      match l' with
      | [] => [x]
      | y :: _ => if Qeq_bool x y then dedup_adjacent l' else x :: dedup_adjacent l'
      end
  end.

(** [np.unique(xs)] : the sorted distinct values. *)
Definition np_unique (l : list Q) : list Q := dedup_adjacent (sorted l).

(** [data[data < 0] = 0] on one pixel. *)
Definition clip_negative (x : Q) : Q := if Qlt_le_dec x 0 then 0 else x.

(** ** Regions and the fitted model *)

(** [bbox = (min_row, min_col, max_row, max_col)], half-open. *)
Record RegionProperties : Type := mkProp {
  prop_label : nat;
  bbox : nat * nat * nat * nat;
  area : nat;
  intensity_image : image
}.

Record Gaussian2D : Type := mkGaussian2D {
  amplitude : Q;
  x_mean : Q;
  y_mean : Q;
  x_stddev : Q;
  y_stddev : Q;
  theta : Q
}.

(** ** The ellipse fitter, [fit_elliplse] *)

Module Fitter.
Section Fit.

(** Lines 389-397: seeding by [infer_gaussian] and the least-squares fit of
    [Gaussian2D] to the background-subtracted patch. *)
Variable lev_mar_fit : image -> Gaussian2D.

(** Lines 385 and 388 once the background value is known. *)
Definition subtract_background (bg : Q) (data : image) : image :=
  map (map (fun x => clip_negative (x - bg))) data.

(** Lines 382-397.  [np.unique(...)[1]] raises [IndexError] when there is
    no element of index 1; the handler turns it into
    [NoIntensityRegionException].  Plotting (lines 402-425) does not touch
    the returned model. *)
Definition fit_elliplse (prop : RegionProperties) : result Gaussian2D :=
  let data := intensity_image prop in
  match nth_error (np_unique (sorted (ravel data))) 1 with
  | None => Raise NoIntensityRegionException
  | Some bg => Ok (lev_mar_fit (subtract_background bg data))
  end.

End Fit.

(** The condition as the specification words it: what is left of the patch
    after subtracting the second-smallest distinct value and clipping has no
    positive pixel.  When there is no second-smallest value nothing is left. *)
Definition has_positive (data : image) : bool :=
  existsb (fun x => if Qlt_le_dec 0 x then true else false) (ravel data).

Definition no_positive_after_subtraction (data : image) : Prop :=
  match nth_error (np_unique (sorted (ravel data))) 1 with
  | None => True
  | Some bg => has_positive (subtract_background bg data) = false
  end.

(** All pixels of the patch carry one value (an empty patch included). *)
Definition all_equal (l : list Q) : Prop :=
  forall x y, In x l -> In y l -> x == y.

Definition constant_patch (data : image) : Prop := all_equal (ravel data).

End Fitter.

(** ** The amplitude threshold estimator, [find_clusters_ell_amplitudes] *)

Module Estimator.

(** *** Library calls *)

Definition list_max (l : list Q) : option Q :=
  match l with
  | [] => None
  | x :: l' => Some (fold_left (fun m y => if Qlt_le_dec m y then y else m) l' x)
  end.

Definition list_min (l : list Q) : option Q :=
  match l with
  | [] => None
  | x :: l' => Some (fold_left (fun m y => if Qlt_le_dec y m then y else m) l' x)
  end.

(** [np.max], [np.min] and the builtin [min] raise [ValueError] on an empty
    sequence. *)
Definition or_value_error {A : Type} (o : option A) : result A :=
  match o with
  | Some a => Ok a
  | None => Raise ValueError
  end.

(** [np.unique(labels, return_counts=True)] : the distinct labels in
    ascending order, each with its number of occurrences. *)
Fixpoint insert_count (x : Z) (l : list (Z * nat)) : list (Z * nat) :=
  match l with
  | [] => [(x, 1%nat)]
  | (y, c) :: l' =>
      match (x ?= y)%Z with
      | Lt => (x, 1%nat) :: (y, c) :: l'
      | Eq => (y, S c) :: l'
      | Gt => (y, c) :: insert_count x l'
      end
  end.

Definition np_unique_counts (labels : list Z) : list (Z * nat) :=
  fold_right insert_count [] labels.

(** [np.argmax] : index of the first occurrence of the maximum. *)
Fixpoint argmax_from (best_i best i : nat) (l : list nat) : nat :=
  match l with
  | [] => best_i
  | c :: l' =>
      if (best <? c)%nat then argmax_from i c (S i) l'
      else argmax_from best_i best (S i) l'
  end.

Definition np_argmax (l : list nat) : option nat :=
  match l with
  | [] => None
  | c :: l' => Some (argmax_from 0 c 1 l')
  end.

(** [data[mask]] : selection by a boolean mask. *)
Fixpoint select (A : Type) (mask : list bool) (data : list A) : list A :=
  match mask, data with
  | b :: mask', x :: data' => if b then x :: select mask' data' else select mask' data'
  | _, _ => []
  end.

(** *** DBSCAN on one-dimensional data

    Model of [sklearn.cluster.DBSCAN(eps, min_samples).fit(data_).labels_]:
    a point's neighbourhood holds the points at distance at most [eps]
    (itself included); a point is a core sample when its neighbourhood has at
    least [min_samples] points; clusters are numbered 0, 1, ... in order of
    their first core sample and grown depth-first through core samples;
    what no cluster reaches keeps the label -1.

    [dbscan_labels] is the labelling itself, for a radius the library has
    accepted; [dbscan_fit] below is the call as the program makes it, with
    the library's check [if not eps > 0.0: raise ValueError] in front. *)

Definition neighborhood (eps : Q) (data : list Q) (x : Q) : list nat :=
  map fst
    (filter (fun p => Qle_bool (Qabs (snd p - x)) eps)
            (combine (seq 0 (length data)) data)).

Definition neighborhoods (eps : Q) (data : list Q) : list (list nat) :=
  map (neighborhood eps data) data.

Definition is_core (min_samples : nat) (nbrs : list (list nat)) : list bool :=
  map (fun nb => (min_samples <=? length nb)%nat) nbrs.

Fixpoint set_nth (A : Type) (i : nat) (v : A) (l : list A) : list A :=
  match l, i with
  | [], _ => []
  | _ :: l', O => v :: l'
  | x :: l', S i' => x :: set_nth i' v l'
  end.

Definition unlabelled (labels : list Z) (i : nat) : bool :=
  (nth i labels (-1) =? -1)%Z.

(** The [while True] loop of the labelling: the stack has its top first. *)
Fixpoint expand (fuel : nat) (core : list bool) (nbrs : list (list nat))
    (label_num : Z) (i : nat) (stack : list nat) (labels : list Z) : list Z :=
  match fuel with
  | O => labels
  | S fuel' =>
      let '(labels1, stack1) :=
        if unlabelled labels i then
          let labels' := set_nth i label_num labels in
          if nth i core false then
            (labels',
             fold_left (fun st v => if unlabelled labels' v then v :: st else st)
                       (nth i nbrs []) stack)
          else (labels', stack)
        else (labels, stack) in
      match stack1 with
      | [] => labels1
      | v :: rest => expand fuel' core nbrs label_num v rest labels1
      end
  end.

(** The outer [for i in range(n)] loop. *)
Fixpoint dbscan_outer (fuel : nat) (core : list bool) (nbrs : list (list nat))
    (todo : list nat) (label_num : Z) (labels : list Z) : list Z :=
  match todo with
  | [] => labels
  | i :: todo' =>
      if negb (unlabelled labels i) || negb (nth i core false)
      then dbscan_outer fuel core nbrs todo' label_num labels
      else dbscan_outer fuel core nbrs todo' (label_num + 1)
             (expand fuel core nbrs label_num i [] labels)
  end.

Definition dbscan_labels (eps : Q) (min_samples : nat) (data : list Q) : list Z :=
  let n := length data in
  let nbrs := neighborhoods eps data in
  dbscan_outer (n * n + n + 1) (is_core min_samples nbrs) nbrs
               (seq 0 n) 0%Z (repeat (-1)%Z n).

(** Line 92, [DBSCAN(eps=eps, min_samples=min_samples).fit(data_)]: a radius
    that is not positive is refused with [ValueError] before any point is
    labelled. *)
Definition dbscan_fit (eps : Q) (min_samples : nat) (data : list Q)
  : result (list Z) :=
  if Qlt_le_dec 0 eps then Ok (dbscan_labels eps min_samples data)
  else Raise ValueError.

(** *** Lines 83-110 *)

(** Line 98, the number of clusters "ignoring noise if present". *)
Definition n_clusters_ (labels : list Z) : nat :=
  length (np_unique_counts labels) -
  (if existsb (Z.eqb (-1)) labels then 1 else 0).

(** Lines 99-100: the label [unique[np.argmax(unique_counts)]]. *)
Definition largest_cluster_label (labels : list Z) : result Z :=
  let uc := np_unique_counts labels in
  i <- or_value_error (np_argmax (map snd uc)) ;;
  or_value_error (nth_error (map fst uc) i).

Definition label_mask (l : Z) (labels : list Z) : list bool :=
  map (Z.eqb l) labels.

Definition largest_cluster_data (labels : list Z) (data : list Q) : result (list Q) :=
  l <- largest_cluster_label labels ;;
  Ok (select (label_mask l labels) data).

(** Line 101. *)
Definition outliers (labels : list Z) (data : list Q) : list Q :=
  select (label_mask (-1) labels) data.

Section Estimate.

(** [np.sqrt(len(amplitudes))]. *)
Variable np_sqrt : nat -> Q.
(** Lines 102-104: the maximum-likelihood Rayleigh fit and its 0.999
    quantile. *)
Variable rayleigh_fit_ppf : list Q -> Q.

Definition default_min_samples : nat := 10.

(** The population that line 102 hands to [rayleigh.fit], from the labels of
    an accepted radius. *)
Definition noise_population (min_samples : nat) (eps : Q) (data : list Q)
  : result (list Q) :=
  largest_cluster_data (dbscan_labels eps min_samples data) data.

Definition find_clusters_ell_amplitudes (amplitudes : list Q)
    (min_samples : nat) (eps : option Q) : result Q :=
  let data := amplitudes in
  hi <- or_value_error (list_max data) ;;
  lo <- or_value_error (list_min data) ;;
  let data_range := hi - lo in
  let eps :=
    match eps with
    | Some e => e
    | None => data_range / np_sqrt (length amplitudes)
    end in
  labels <- dbscan_fit eps min_samples data ;;
  largest <- largest_cluster_data labels data ;;
  let threshold := rayleigh_fit_ppf largest in
  let indx :=
    map (fun p => (fst p =? -1)%Z && (if Qlt_le_dec threshold (snd p) then true else false))
        (combine labels data) in
  m <- or_value_error (list_min (select indx data)) ;;
  Ok (m - eps).

End Estimate.

(** What the specification asks of the chosen label: it is a cluster, not the
    outlier label, and no other cluster has more points. *)
Definition count_label (l : Z) (labels : list Z) : nat :=
  length (filter (Z.eqb l) labels).

Definition largest_non_outlier_cluster (labels : list Z) (l : Z) : Prop :=
  l <> (-1)%Z /\ In l labels /\
  forall l', l' <> (-1)%Z -> (count_label l' labels <= count_label l labels)%nat.

End Estimator.

(** ** Candidates *)

(** [Candidate(t, dm)] : arrival time (seconds on the time axis of [t_0]) and
    dispersion measure. *)
Record Candidate : Type := mkCandidate {
  time : Q;
  dm : Q
}.

Definition Qnat (n : nat) : Q := inject_Z (Z.of_nat n).

(** The conversion as the specification words it:
    [candidate.time = t0 + col * d_t; candidate.dm = row * d_dm]. *)
Definition CandidateBuilder (t0 d_t d_dm : Q) (row col : Q) : Candidate :=
  mkCandidate (t0 + col * d_t) (row * d_dm).

Definition candidate_at (t0 d_t d_dm : Q) (peak : Q * Q) : Candidate :=
  CandidateBuilder t0 d_t d_dm (fst peak) (snd peak).

(** ** The size-threshold search, [search_candidates] *)

Module SizeSearch.

Definition label_image := list (list nat).

Definition pixel (img : image) (p : nat * nat) : Q :=
  nth (snd p) (nth (fst p) img []) 0.

(** The positions carrying label [l], in raster order. *)
Definition row_positions (l : nat) (r : nat) (row : list nat) : list (nat * nat) :=
  map (fun c => (r, c))
      (map fst (filter (fun p => (snd p =? l)%nat) (combine (seq 0 (length row)) row))).

Fixpoint positions_from (l : nat) (r : nat) (labeled : label_image) : list (nat * nat) :=
  match labeled with
  | [] => []
  | row :: rest => row_positions l r row ++ positions_from l (S r) rest
  end.

Definition positions_of (l : nat) (labeled : label_image) : list (nat * nat) :=
  positions_from l 0 labeled.

Definition max_label (labeled : label_image) : nat :=
  fold_left Nat.max (concat labeled) 0%nat.

(** A pair of slices [(row.start, row.stop), (col.start, col.stop)]. *)
Definition slices : Type := (nat * nat) * (nat * nat).

Definition extent (xs : list nat) (x0 : nat) : nat * nat :=
  (fold_left Nat.min xs x0, S (fold_left Nat.max xs x0)).

(** [find_objects(labeled_array)] : for every label from 1 to the largest
    one, the smallest box holding its pixels, or [None] for a label that does
    not occur. *)
Definition object_slices (labeled : label_image) (l : nat) : option slices :=
  match positions_of l labeled with
  | [] => None
  | (r0, c0) :: ps =>
      Some (extent (map fst ps) r0, extent (map snd ps) c0)
  end.

Definition find_objects (labeled : label_image) : list (option slices) :=
  map (object_slices labeled) (seq 1 (max_label labeled)).

Definition brighter (img : image) (best p : nat * nat) : nat * nat :=
  if Qlt_le_dec (pixel img best) (pixel img p) then p else best.

(** [maximum_position(image, labels=labeled_array, index=l)] : where the
    image is largest among the pixels labelled [l] (the first such pixel in
    raster order). *)
Definition maximum_position (img : image) (labeled : label_image) (l : nat)
  : nat * nat :=
  match positions_of l labeled with
  | [] => (0%nat, 0%nat)
  | p0 :: ps => fold_left (brighter img) ps p0
  end.

(** Width and height of the box of region [l], as lines 134-135 take them
    from the slices. *)
Definition extents (labeled : label_image) (l : nat) : nat * nat :=
  match object_slices labeled l with
  | Some ((r0, r1), (c0, c1)) => (c1 - c0, r1 - r0)%nat
  | None => (0, 0)%nat
  end.

Definition bbox_width (labeled : label_image) (l : nat) : nat :=
  fst (extents labeled l).

Definition bbox_height (labeled : label_image) (l : nat) : nat :=
  snd (extents labeled l).

(** One record of the structured array [_objects]. *)
Record object : Type := mkObject {
  obj_label : nat;
  dx : nat;
  dy : nat;
  max_pos : nat * nat
}.

(** [np.lexsort((dx, dy))] : ascending by [dy], then by [dx], stable. *)
Definition key_le (a b : object) : bool :=
  (dy a <? dy b)%nat || ((dy a =? dy b)%nat && (dx a <=? dx b)%nat).

Fixpoint insert_object (o : object) (l : list object) : list object :=
  match l with
  | [] => [o]
  | x :: l' => if key_le o x then o :: x :: l' else x :: insert_object o l'
  end.

Definition lexsort (l : list object) : list object :=
  fold_right insert_object [] l.

(** Lines 134-135: [obj[k].stop - obj[k].start]; subscripting [None] raises
    [TypeError]. *)
Fixpoint slice_extents (objects : list (option slices)) : result (list (nat * nat)) :=
  match objects with
  | [] => Ok []
  | None :: _ => Raise TypeError
  | Some ((r0, r1), (c0, c1)) :: rest =>
      es <- slice_extents rest ;;
      Ok ((c1 - c0, r1 - r0)%nat :: es)
  end.

Section Search.

(** [label(a, structure=generate_binary_structure(2, 2))] : the labelled
    array and the number of regions. *)
Variable ndimage_label : image -> label_image * nat.

Variables n_d_x n_d_y : Q.
Variables t_0 d_t d_dm : Q.

(** Lines 142-143. *)
Definition classify (dxdy : nat * nat) : bool :=
  (if Qlt_le_dec n_d_y (Qnat (snd dxdy)) then true else false) &&
  (if Qlt_le_dec n_d_x (Qnat (fst dxdy)) then true else false).

(** What line 145 leaves when no record passed the test: it assigns the
    empty list that [maximum_position] returns for an empty index to a
    field of shape (0, 2).  Whether numpy takes the empty list or refuses
    to broadcast it is a matter of the library; both are covered. *)
Variable empty_selection : result (list object).

(** Lines 119-143: the labels with the extents [(dx, dy)] of their
    boxes, those that pass the size test.  Filling a field of an array of
    [num_features] records from a list of another length raises
    [ValueError]. *)
Definition sized_objects (img : image) : result (list (nat * (nat * nat))) :=
  let '(labeled_array, num_features) := ndimage_label img in
  let objects := find_objects labeled_array in
  let labels := seq 1 num_features in
  dxdy <- slice_extents objects ;;
  if negb (length dxdy =? num_features)%nat then Raise ValueError
  else Ok (filter (fun le => classify (snd le)) (combine labels dxdy)).

(** Lines 119-146: the records that pass, with their peak. *)
Definition classified_objects (img : image) : result (list object) :=
  let labeled_array := fst (ndimage_label img) in
  kept <- sized_objects img ;;
  match kept with
  | [] => empty_selection
  | _ :: _ =>
      Ok (map (fun le =>
                 mkObject (fst le) (fst (snd le)) (snd (snd le))
                          (maximum_position img labeled_array (fst le)))
              kept)
  end.

(** Lines 150-153, the body of the loop for one record. *)
Definition candidate_of_object (o : object) : Candidate :=
  let max_pos := max_pos o in
  mkCandidate (t_0 + Qnat (snd max_pos) * d_t) (Qnat (fst max_pos) * d_dm).

(** Lines 147-156. *)
Definition emit (objs : list object) : list Candidate :=
  fold_left (fun candidates o => candidates ++ [candidate_of_object o])
            (rev (lexsort objs)) [].

Definition search_candidates (img : image) : result (list Candidate) :=
  objs <- classified_objects img ;;
  Ok (emit objs).

End Search.

(** The labelling has exactly the labels [1 .. n]. *)
Definition well_labelled (labeled : label_image) (n : nat) : Prop :=
  max_label labeled = n /\
  forall l, (1 <= l <= n)%nat -> exists p, In p (positions_of l labeled).

(** [p] is a pixel of region [l] where the image is largest on the region. *)
Definition is_peak_of (img : image) (labeled : label_image) (l : nat)
    (p : nat * nat) : Prop :=
  In p (positions_of l labeled) /\
  forall q, In q (positions_of l labeled) -> pixel img q <= pixel img p.

(** Order of emission: taller first, and wider first among equally tall. *)
Definition ranked_before (a b : object) : Prop :=
  (dy b < dy a)%nat \/ (dy a = dy b /\ (dx b <= dx a)%nat).

Definition ascending (a b : object) : Prop := key_le a b = true.

Definition height_width (o : object) : nat * nat := (dy o, dx o).

Definition peak_of_object (o : object) : Q * Q :=
  (Qnat (fst (max_pos o)), Qnat (snd (max_pos o))).

End SizeSearch.

(** ** The ellipse-shape search, [search_candidates_ell] *)

Module EllSearch.

(** [np.cos], [np.rad2deg] and the float remainder [%] (sign of the
    divisor), read over the reals. *)
Definition np_cos (x : Q) : R := cos (Q2R x).
Definition np_rad2deg (x : Q) : R := (Q2R x * (180 / PI))%R.
Definition py_mod (x m : R) : R := (x - m * IZR (Int_part (x / m)))%R.

Definition Rltb (x y : R) : bool := if Rlt_dec x y then true else false.

(** Search parameters: [x_stddev], [x_cos_theta], [y_to_x_stddev],
    [theta_lims]. *)
Record shape_limits : Type := mkLimits {
  lim_x_stddev : Q;
  lim_x_cos_theta : Q;
  lim_y_to_x_stddev : Q;
  theta_lims : Q * Q
}.

(** Lines 207-211. *)
Definition accepts (lim : shape_limits) (amplitude_thr : Q) (gg : Gaussian2D) : bool :=
  Rltb (Rabs (Q2R (lim_x_stddev lim))) (Rabs (Q2R (x_stddev gg))) &&
  Rltb (Q2R (lim_x_cos_theta lim)) (Rabs (Q2R (x_stddev gg) * np_cos (theta gg))) &&
  Rltb (Rabs (Q2R (y_stddev gg) / Q2R (x_stddev gg))) (Q2R (lim_y_to_x_stddev lim)) &&
  Rltb (Q2R amplitude_thr) (Q2R (amplitude gg)) &&
  (Rltb (Q2R (fst (theta_lims lim))) (py_mod (np_rad2deg (theta gg)) 180) &&
   Rltb (py_mod (np_rad2deg (theta gg)) 180) (Q2R (snd (theta_lims lim)))).

(** The five conditions as the specification words them. *)
Definition spec_accepts (lim : shape_limits) (amplitude_thr : Q) (gg : Gaussian2D) : Prop :=
  (Rabs (Q2R (x_stddev gg)) > Q2R (lim_x_stddev lim))%R /\
  (Rabs (Q2R (x_stddev gg) * np_cos (theta gg)) > Q2R (lim_x_cos_theta lim))%R /\
  (Rabs (Q2R (y_stddev gg) / Q2R (x_stddev gg)) < Q2R (lim_y_to_x_stddev lim))%R /\
  (Q2R (amplitude gg) > Q2R amplitude_thr)%R /\
  (Q2R (fst (theta_lims lim)) <= py_mod (np_rad2deg (theta gg)) 180
     <= Q2R (snd (theta_lims lim)))%R.

(** What the code tests: the first bound is taken in absolute value and the
    angle has to lie strictly inside its limits. *)
Definition code_accepts (lim : shape_limits) (amplitude_thr : Q) (gg : Gaussian2D) : Prop :=
  (Rabs (Q2R (x_stddev gg)) > Rabs (Q2R (lim_x_stddev lim)))%R /\
  (Rabs (Q2R (x_stddev gg) * np_cos (theta gg)) > Q2R (lim_x_cos_theta lim))%R /\
  (Rabs (Q2R (y_stddev gg) / Q2R (x_stddev gg)) < Q2R (lim_y_to_x_stddev lim))%R /\
  (Q2R (amplitude gg) > Q2R amplitude_thr)%R /\
  (Q2R (fst (theta_lims lim)) < py_mod (np_rad2deg (theta gg)) 180
     < Q2R (snd (theta_lims lim)))%R.

Section Search.

Variable lev_mar_fit : image -> Gaussian2D.
Variable np_sqrt : nat -> Q.
Variable rayleigh_fit_ppf : list Q -> Q.
(** [label] followed by [regionprops(labeled_array, intensity_image=image)]. *)
Variable regionprops : image -> list RegionProperties.

Variable lim : shape_limits.
Variables t_0 d_t d_dm : Q.

Definition fit := Fitter.fit_elliplse lev_mar_fit.

(** Lines 171-178: the non-zero amplitudes of the regions that can be
    fitted. *)
Definition collect_amplitudes (props : list RegionProperties) : list Q :=
  fold_left
    (fun amplitudes prop =>
       match fit prop with
       | Ok gg =>
           if Qeq_bool (amplitude gg) 0 then amplitudes
           else amplitudes ++ [amplitude gg]
       | Raise _ => amplitudes
       end)
    props [].

(** Lines 170-179.  The local variable [amplitudes] is bound only on the
    branch that estimates the threshold; [None] stands for "unbound". *)
Definition threshold_stage (props : list RegionProperties) (amplitude : option Q)
  : result (option (list Q) * Q) :=
  match amplitude with
  | None =>
      let amplitudes := collect_amplitudes props in
      a <- Estimator.find_clusters_ell_amplitudes np_sqrt rayleigh_fit_ppf
             amplitudes Estimator.default_min_samples None ;;
      Ok (Some amplitudes, a)
  | Some a => Ok (None, a)
  end.

(** Reading a local variable that was never assigned. *)
Definition read_local {A : Type} (v : option A) : result A :=
  match v with
  | Some a => Ok a
  | None => Raise UnboundLocalError
  end.

(** Lines 182-199: the two histograms.  They are drawn on every call;
    nothing of them reaches the candidates, but [ax.hist(amplitudes, ...)]
    reads the local variable. *)
Definition histogram_stage (amplitudes : option (list Q)) : result unit :=
  _ <- read_local amplitudes ;;
  Ok tt.

(** Lines 218-221 for one accepted region. *)
Definition candidate_of_fit (prop : RegionProperties) (gg : Gaussian2D) : Candidate :=
  let '(b0, b1, _, _) := bbox prop in
  let max_pos := (x_mean gg + Qnat b0, y_mean gg + Qnat b1) in
  mkCandidate (t_0 + snd max_pos * d_t) (fst max_pos * d_dm).

(** Lines 202-222.  The second fit of an accepted region (line 212) is
    outside the [try]. *)
Definition classify_stage (props : list RegionProperties) (amplitude : Q)
  : result (list Candidate) :=
  fold_left
    (fun acc prop =>
       candidates <- acc ;;
       match fit prop with
       | Raise _ => Ok candidates
       | Ok gg =>
           if accepts lim amplitude gg then
             gg' <- fit prop ;;
             Ok (candidates ++ [candidate_of_fit prop gg'])
           else Ok candidates
       end)
    props (Ok []).

Definition search_candidates_ell (img : image) (amplitude : option Q)
  : result (list Candidate) :=
  let props := regionprops img in
  st <- threshold_stage props amplitude ;;
  _ <- histogram_stage (fst st) ;;
  classify_stage props (snd st).

(** The accepted regions with their fit, in the order of [props]. *)
Fixpoint accepted (props : list RegionProperties) (amplitude : Q)
  : list (RegionProperties * Gaussian2D) :=
  match props with
  | [] => []
  | prop :: rest =>
      match fit prop with
      | Ok gg =>
          if accepts lim amplitude gg then (prop, gg) :: accepted rest amplitude
          else accepted rest amplitude
      | Raise _ => accepted rest amplitude
      end
  end.

End Search.

(** The peak of a fitted region: fitted mean plus the offset of the box. *)
Definition peak_of_fit (pg : RegionProperties * Gaussian2D) : Q * Q :=
  let '(b0, b1, _, _) := bbox (fst pg) in
  (x_mean (snd pg) + Qnat b0, y_mean (snd pg) + Qnat b1).

End EllSearch.

(** ** The learned-classifier search, [search_candidates_clf] *)

Module ClfSearch.
Section Search.

Variable lev_mar_fit : image -> Gaussian2D.
(** [pclf.classify_data(image)[1].items()] : the regions with the response
    of the trained classifier. *)
Variable classify_data : image -> list (RegionProperties * bool).
Variables t_0 d_t d_dm : Q.

Definition fit := Fitter.fit_elliplse lev_mar_fit.

(** Lines 86-89. *)
Definition positive_props (responses : list (RegionProperties * bool))
  : list RegionProperties :=
  fold_left
    (fun acc (pr : RegionProperties * bool) =>
       if snd pr then acc ++ [fst pr] else acc)
    responses [].

(** Lines 92-109. *)
Definition search_candidates_clf (img : image) : list Candidate :=
  fold_left
    (fun candidates prop =>
       match fit prop with
       | Raise _ => candidates
       | Ok gg =>
           let '(b0, b1, _, _) := bbox prop in
           let max_pos := (x_mean gg + Qnat b0, y_mean gg + Qnat b1) in
           candidates ++ [mkCandidate (t_0 + snd max_pos * d_t) (fst max_pos * d_dm)]
       end)
    (positive_props (classify_data img)) [].

(** The positively classified regions that can be fitted, with their fit. *)
Fixpoint fitted (props : list RegionProperties)
  : list (RegionProperties * Gaussian2D) :=
  match props with
  | [] => []
  | prop :: rest =>
      match fit prop with
      | Ok gg => (prop, gg) :: fitted rest
      | Raise _ => fitted rest
      end
  end.

End Search.
End ClfSearch.

(** ** The preprocessor, [create_ellipses] *)

Module Preprocessor.

Inductive statistic : Type := mean | median | gauss.

(** [np.mean(a)] over all pixels. *)
Definition np_mean (a : image) : Q :=
  fold_left Qplus (ravel a) 0 / Qnat (length (ravel a)).

(** [image[image < threshold] = 0]. *)
Definition zero_below (threshold : Q) (a : image) : image :=
  map (map (fun x => if Qlt_le_dec x threshold then 0 else x)) a.

Fixpoint mapi_from (A B : Type) (f : nat -> A -> B) (i : nat) (l : list A) : list B :=
  match l with
  | [] => []
  | x :: l' => f i x :: mapi_from f (S i) l'
  end.

Definition in_slice (start stop i : nat) : bool :=
  (start <=? i)%nat && (i <? stop)%nat.

Definition in_bbox (bb : nat * nat * nat * nat) (r c : nat) : bool :=
  let '(r0, c0, r1, c1) := bb in
  in_slice r0 r1 r && in_slice c0 c1 c.

(** [a[bb[0]:bb[2], bb[1]:bb[3]] = v] : the slices are clipped to the
    array. *)
Definition assign_box (bb : nat * nat * nat * nat) (v : Q) (a : image) : image :=
  mapi_from
    (fun r row => mapi_from (fun c x => if in_bbox bb r c then v else x) 0 row)
    0 a.

Definition lookup (a : image) (r c : nat) : option Q :=
  match nth_error a r with
  | Some row => nth_error row c
  | None => None
  end.

(** Lines 351-354. *)
Definition big_sized_props (props : list RegionProperties) (max_prop_size : nat)
  : list RegionProperties :=
  filter (fun prop => (max_prop_size <? area prop)%nat) props.

(** Lines 355-358: one box after the other, each with the mean of the array
    as it is when its turn comes. *)
Definition filter_out (big : list RegionProperties) (tdm_image : image) : image :=
  fold_left (fun a prop => assign_box (bbox prop) (np_mean a) a) big tdm_image.

Section Preprocess.

(** [statistic_dict[statistic](image, disk_size)]. *)
Variable statistic_filter : statistic -> image -> Q -> image.
(** [np.percentile(image.ravel(), q)]. *)
Variable np_percentile : list Q -> Q -> Q.
(** [opening(image, opening_selem)]. *)
Variable opening : image -> image -> image.
(** [label] followed by [regionprops(labeled_array, intensity_image=image)]. *)
Variable regionprops : image -> list RegionProperties.

Variable disk_size : Q.
Variable stat : statistic.
Variable opening_selem : image.
Variable max_prop_size : nat.

(** Lines 335-342 and 360-365 for a given percentile. *)
Definition smooth_threshold_open (a : image) (perc : Q) : image :=
  let image := statistic_filter stat a disk_size in
  let threshold := np_percentile (ravel image) perc in
  opening (zero_below threshold image) opening_selem.

(** The regions whose boxes lines 344-358 overwrite. *)
Definition oversized (tdm_image : image) (threshold_big_perc : Q)
  : list RegionProperties :=
  big_sized_props (regionprops (smooth_threshold_open tdm_image threshold_big_perc))
                  max_prop_size.

(** Lines 334-367.  The array [tdm_image] is the caller's: the function
    gives back its result together with the array as it leaves it.  With
    both percentiles [None], [np.percentile] is called with [None]. *)
Definition create_ellipses (tdm_image : image)
    (threshold_big_perc threshold_perc : option Q) : result image * image :=
  let tdm_image' :=
    match threshold_big_perc with
    | Some big_perc => filter_out (oversized tdm_image big_perc) tdm_image
    | None => tdm_image
    end in
  let threshold_perc :=
    match threshold_perc with
    | Some p => Some p
    | None => threshold_big_perc
    end in
  match threshold_perc with
  | Some p => (Ok (smooth_threshold_open tdm_image' p), tdm_image')
  | None => (Raise TypeError, tdm_image')
  end.

End Preprocess.

(** Pixel [(r, c)] lies in the box of one of the regions. *)
Definition in_some_bbox (props : list RegionProperties) (r c : nat) : bool :=
  existsb (fun prop => in_bbox (bbox prop) r c) props.

End Preprocessor.

(** ** Concrete inputs *)

Module Examples.

(** A region of constant intensity 5 whose box has one pixel outside the
    region (shown as 0 in [intensity_image]). *)
Definition two_level_patch : image := [[0; 5]; [5; 5]].
Definition two_level_region : RegionProperties :=
  mkProp 1 (0, 0, 2, 2)%nat 3 two_level_patch.
Definition unit_fit (_ : image) : Gaussian2D := mkGaussian2D 0 0 0 0 0 0.

(** Three fitted amplitudes: fewer than [min_samples]. *)
Definition few_amplitudes : list Q := [1; 2; 3].

(** Ten equal amplitudes and eleven scattered ones. *)
Definition crowded_amplitudes : list Q :=
  [1; 1; 1; 1; 1; 1; 1; 1; 1; 1;
   10; 20; 30; 40; 50; 60; 70; 80; 90; 100; 110].

(** Any angle between 0 and 180 degrees, and a fit with [theta = 0]. *)
Definition any_angle_limits : EllSearch.shape_limits :=
  EllSearch.mkLimits 6 3 (3 # 10) (0, 180).
Definition upright_fit : Gaussian2D := mkGaussian2D 5 4 4 10 1 0.

(** A negative bound on [x_stddev], and a fit with [theta = 1]. *)
Definition negative_limits : EllSearch.shape_limits :=
  EllSearch.mkLimits (-6) (-1) (3 # 10) (0, 180).
Definition tilted_fit : Gaussian2D := mkGaussian2D 5 4 4 4 1 1.

(** Regions of (height, width) = (10, 2), (5, 8), (10, 5). *)
Definition three_regions : list SizeSearch.object :=
  [SizeSearch.mkObject 1 2 10 (0, 0)%nat;
   SizeSearch.mkObject 2 8 5 (0, 0)%nat;
   SizeSearch.mkObject 3 5 10 (0, 0)%nat].

(** An image with a 2 x 2 region and a single pixel, and its labelling. *)
Definition two_blobs : image :=
  [[1; 2; 0; 0];
   [3; 7; 0; 4];
   [0; 0; 0; 0]].
Definition two_blobs_labels : SizeSearch.label_image :=
  [[1; 1; 0; 0];
   [1; 1; 0; 2];
   [0; 0; 0; 0]]%nat.
Definition label_two_blobs (_ : image) : SizeSearch.label_image * nat :=
  (two_blobs_labels, 2%nat).

(** A preprocessing run whose filters leave the image as it is and whose
    segmentation reports one region of two pixels. *)
Definition keep_filter (_ : Preprocessor.statistic) (a : image) (_ : Q) : image := a.
Definition low_percentile (_ : list Q) (q : Q) : Q := q.
Definition keep_opening (a _ : image) : image := a.
Definition bright_block : RegionProperties :=
  mkProp 1 (0, 0, 1, 2)%nat 2 [[9; 9]].
Definition one_block (_ : image) : list RegionProperties := [bright_block].
Definition striped_image : image := [[9; 9; 1]; [0; 1; 2]].

(** A strip with two regions of one pixel each. *)
Definition spotted_image : image := [[3; 0; 9]].
Definition two_spots : list RegionProperties :=
  [mkProp 1 (0, 0, 1, 1)%nat 1 [[3]]; mkProp 2 (0, 2, 1, 3)%nat 1 [[9]]].
Definition spot_props (_ : image) : list RegionProperties := two_spots.

End Examples.

(** ** More of the estimator: what its steps compute *)

Module EstimatorSpec.
Import Estimator.

(** The number recorded for label [l] in the pairs of
    [np.unique(labels, return_counts=True)]. *)
Definition lookup_count (l : Z) (uc : list (Z * nat)) : nat :=
  fold_right (fun p acc => if (fst p =? l)%Z then (snd p + acc)%nat else acc) 0%nat uc.

(** Lines 88-91: the radius handed to DBSCAN. *)
Definition used_eps (np_sqrt : nat -> Q) (amplitudes : list Q) (eps : option Q) : Q :=
  match eps with
  | Some e => e
  | None =>
      match list_max amplitudes, list_min amplitudes with
      | Some hi, Some lo => (hi - lo) / np_sqrt (length amplitudes)
      | _, _ => 0
      end
  end.

(** Line 108: the amplitudes labelled -1 that exceed the threshold. *)
Definition outliers_above (threshold : Q) (labels : list Z) (data : list Q) : list Q :=
  select
    (map (fun p => (fst p =? -1)%Z && (if Qlt_le_dec threshold (snd p) then true else false))
         (combine labels data))
    data.

End EstimatorSpec.

(** ** Peak of a box and seed of the fit: [max_pos], [infer_gaussian] *)

Module Patch.

(** [l[start:stop]] with [0 <= start]: clipped to the list. *)
Definition slice {A : Type} (start stop : nat) (l : list A) : list A :=
  firstn (stop - start) (skipn start l).

(** [a.argmax()], [np.argmax(a)] : the flat index of the first occurrence of
    the maximum. *)
Fixpoint argmax_from (best_i : nat) (best : Q) (i : nat) (l : list Q) : nat :=
  match l with
  | [] => best_i
  | c :: l' =>
      if Qlt_le_dec best c then argmax_from i c (S i) l'
      else argmax_from best_i best (S i) l'
  end.

Definition np_argmax (l : list Q) : option nat :=
  match l with
  | [] => None
  | c :: l' => Some (argmax_from 0 c 1 l')
  end.

Definition shape (a : image) : nat * nat := (length a, length (hd [] a)).

(** [np.unravel_index(k, shape)] for a two-dimensional shape. *)
Definition unravel_index (k : nat) (shp : nat * nat) : nat * nat :=
  (k / snd shp, k mod snd shp)%nat.

(** Every row has [w] pixels. *)
Definition rectangular (a : image) (w : nat) : Prop :=
  Forall (fun row => length row = w) a.

(** Lines 60-64.  [argmax] of an empty array raises [ValueError]. *)
Definition max_pos (object : RegionProperties) (img : image)
  : result ((nat * nat) * nat * nat) :=
  let '(b0, b1, b2, b3) := bbox object in
  let subimage := map (slice b1 b3) (slice b0 b2 img) in
  k <- Estimator.or_value_error (np_argmax (ravel subimage)) ;;
  let indx := unravel_index k (shape subimage) in
  Ok ((b0 + fst indx, b1 + snd indx), b2 - b0, b3 - b1)%nat.

(** [len(np.where(v - half > 0)[0])]. *)
Definition count_above (half : Q) (v : list Q) : nat :=
  length (filter (fun x => if Qlt_le_dec 0 (x - half) then true else false) v).

(** [data[:, y]]. *)
Definition column (y : nat) (data : image) : list Q :=
  map (fun row => nth y row 0) data.

(** Lines 466-473: amplitude, place of the maximum, and the numbers [dx],
    [dy] of pixels above half the maximum on its row and on its column. *)
Definition half_max_extents (data : image) : result (Q * (nat * nat) * (nat * nat)) :=
  amplitude <- Estimator.or_value_error (Estimator.list_max (ravel data)) ;;
  k <- Estimator.or_value_error (np_argmax (ravel data)) ;;
  let '(x_0, y_0) := unravel_index k (shape data) in
  let row := nth x_0 data [] in
  let column := column y_0 data in
  let dx := count_above (amplitude / 2) row in
  let dy := count_above (amplitude / 2) column in
  Ok (amplitude, (x_0, y_0), (dx, dy)).

Section Seed.

(** [np.sqrt]. *)
Variable np_sqrt : Q -> Q.

(** Lines 461-476. *)
Definition infer_gaussian (data : image) : result (Q * Q * Q * Q) :=
  s <- half_max_extents data ;;
  let '(amplitude, (x_0, y_0), (dx, dy)) := s in
  let width := np_sqrt (Qnat dx * Qnat dx + Qnat dy * Qnat dy) in
  Ok (amplitude, Qnat x_0, Qnat y_0, width).

End Seed.


End Patch.

(** ** More concrete inputs *)

Module MoreExamples.

(** Three amplitudes, and four of which two coincide. *)
Definition small_population : list Q := [1; 2; 7].
Definition paired_population : list Q := [1; 1; 10; 20].

(** A 3 x 4 image and a box inside it. *)
Definition ramp_image : image :=
  [[1; 2; 3; 4];
   [5; 9; 7; 8];
   [2; 6; 9; 1]].
Definition inner_box : RegionProperties :=
  mkProp 1 (1, 1, 3, 3)%nat 4 [[9; 7]; [6; 9]].


End MoreExamples.

Unset Implicit Arguments.

(** * Properties *)

(** ** Loops that append one item per element *)

Section Loops.
Context {A B : Type}.

Lemma fold_left_append_map (f : A -> B) (l : list A) (acc : list B) :
  fold_left (fun out x => out ++ [f x]) l acc = acc ++ map f l.
Proof.
  revert acc; induction l as [|x l IH]; intros acc; simpl.
  - now rewrite app_nil_r.
  - rewrite IH, <- app_assoc. reflexivity.
Qed.

Lemma combine_map_r (f : A -> B) (l : list A) :
  combine l (map f l) = map (fun x => (x, f x)) l.
Proof. induction l as [|x l IH]; simpl; [reflexivity | now rewrite IH]. Qed.
End Loops.

Lemma Qlt_le_dec_true (a b : Q) :
  (if Qlt_le_dec a b then true else false) = true <-> a < b.
Proof.
  destruct (Qlt_le_dec a b) as [H|H]; split; intros H'; try easy.
  exfalso. exact (Qlt_not_le _ _ H' H).
Qed.

(** ** The ellipse fitter *)

Module FitterFacts.
Import Fitter Examples.

Lemma In_insert_sorted (x y : Q) (l : list Q) :
  In y (insert_sorted x l) <-> y = x \/ In y l.
Proof.
  induction l as [|z l IH]; simpl.
  - intuition.
  - destruct (Qle_bool x z); simpl; rewrite ?IH; intuition.
Qed.

Lemma In_sorted (y : Q) (l : list Q) : In y (sorted l) <-> In y l.
Proof.
  induction l as [|x l IH]; simpl.
  - tauto.
  - rewrite In_insert_sorted, IH. intuition.
Qed.

Lemma all_equal_sorted (l : list Q) : all_equal (sorted l) <-> all_equal l.
Proof.
  unfold all_equal; split; intros H x y Hx Hy.
  - apply H; apply In_sorted; assumption.
  - apply H; apply In_sorted; assumption.
Qed.

Lemma dedup_adjacent_nonempty (x : Q) (l : list Q) :
  dedup_adjacent (x :: l) <> [].
Proof.
  revert x; induction l as [|y l IH]; intros x; simpl.
  - discriminate.
  - destruct (Qeq_bool x y); [apply IH | discriminate].
Qed.

Lemma dedup_adjacent_step (x y : Q) (l : list Q) :
  dedup_adjacent (x :: y :: l)
  = if Qeq_bool x y then dedup_adjacent (y :: l) else x :: dedup_adjacent (y :: l).
Proof. reflexivity. Qed.

Lemma all_equal_cons (x y : Q) (l : list Q) :
  x == y -> all_equal (y :: l) -> all_equal (x :: y :: l).
Proof.
  intros Hxy H a b Ha Hb.
  assert (E : forall c, In c (x :: y :: l) -> c == y).
  { intros c [<-|Hc]; [assumption|]. apply H; simpl; auto. }
  rewrite (E a Ha), (E b Hb). reflexivity.
Qed.

(** One distinct value at most is left exactly when the values are all
    equal. *)
Lemma dedup_short_all_equal (l : list Q) :
  (length (dedup_adjacent l) <= 1)%nat -> all_equal l.
Proof.
  induction l as [|x l IH].
  - intros _ a b [].
  - destruct l as [|y l].
    + intros _ a b [<-|[]] [<-|[]]. reflexivity.
    + rewrite dedup_adjacent_step.
      destruct (Qeq_bool x y) eqn:E; intros H.
      * apply all_equal_cons; [now apply Qeq_bool_eq | now apply IH].
      * exfalso.
        pose proof (dedup_adjacent_nonempty y l) as Hne.
        destruct (dedup_adjacent (y :: l)); [congruence | simpl in H; lia].
Qed.

Lemma all_equal_dedup_short (l : list Q) :
  all_equal l -> (length (dedup_adjacent l) <= 1)%nat.
Proof.
  induction l as [|x l IH]; intros H.
  - simpl; lia.
  - destruct l as [|y l].
    + simpl; lia.
    + rewrite dedup_adjacent_step.
      assert (Hxy : x == y) by (apply H; simpl; auto).
      apply Qeq_eq_bool in Hxy. rewrite Hxy.
      apply IH. intros a b Ha Hb. apply H; simpl; auto.
Qed.

Lemma no_second_value_iff (l : list Q) :
  nth_error (np_unique (sorted l)) 1 = None <-> all_equal l.
Proof.
  unfold np_unique. rewrite nth_error_None. split.
  - intros H. apply dedup_short_all_equal in H.
    now apply (proj1 (all_equal_sorted l)), (proj1 (all_equal_sorted (sorted l))).
  - intros H. apply all_equal_dedup_short.
    now apply (proj2 (all_equal_sorted (sorted l))), (proj2 (all_equal_sorted l)).
Qed.

(** The fit gives a model or raises [NoIntensityRegionException], nothing
    else. *)
Lemma fit_elliplse_outcomes (lev_mar_fit : image -> Gaussian2D) (prop : RegionProperties) :
  fit_elliplse lev_mar_fit prop = Raise NoIntensityRegionException \/
  exists bg,
    nth_error (np_unique (sorted (ravel (intensity_image prop)))) 1 = Some bg /\
    fit_elliplse lev_mar_fit prop
    = Ok (lev_mar_fit (subtract_background bg (intensity_image prop))).
Proof.
  unfold fit_elliplse.
  destruct (nth_error _ 1) as [bg|]; [right; now exists bg | now left].
Qed.

(** C1, as the code has it: the fitter raises [NoIntensityRegionException]
    if and only if the intensity patch of the region has fewer than two
    distinct values, that is, all its pixels are equal; in particular a
    constant patch raises. *)
Theorem fit_raises_iff_constant_patch
    (lev_mar_fit : image -> Gaussian2D) (prop : RegionProperties) :
  fit_elliplse lev_mar_fit prop = Raise NoIntensityRegionException
  <-> constant_patch (intensity_image prop).
Proof.
  unfold fit_elliplse, constant_patch.
  rewrite <- (no_second_value_iff (ravel (intensity_image prop))).
  destruct (nth_error _ 1); split; intros H; congruence.
Qed.

(** C1, as stated, fails: the patch [[0; 5]; [5; 5]] has two distinct
    values; after subtracting the second one, 5, and clipping, nothing
    positive is left, and yet the patch is handed to the fit and no exception
    is raised. *)
Lemma two_level_patch_is_fitted :
  no_positive_after_subtraction (intensity_image two_level_region) /\
  fit_elliplse unit_fit two_level_region
  = Ok (unit_fit [[0; 0]; [0; 0]]) /\
  ~ (forall lev_mar_fit prop,
        fit_elliplse lev_mar_fit prop = Raise NoIntensityRegionException
        <-> no_positive_after_subtraction (intensity_image prop)).
Proof.
  assert (E : no_positive_after_subtraction (intensity_image two_level_region))
    by (vm_compute; reflexivity).
  split; [exact E|]. split; [reflexivity|].
  intros H. destruct (H unit_fit two_level_region) as [_ H2].
  specialize (H2 E). discriminate H2.
Qed.

End FitterFacts.

(** ** The amplitude threshold estimator *)

Module EstimatorFacts.
Import Estimator Examples.

Lemma neighborhood_length (eps : Q) (data : list Q) (x : Q) :
  (length (neighborhood eps data x) <= length data)%nat.
Proof.
  unfold neighborhood. rewrite length_map.
  eapply Nat.le_trans; [apply filter_length_le|].
  rewrite length_combine, length_seq. lia.
Qed.

(** With fewer points than [min_samples] there is no core sample. *)
Lemma no_core_sample (eps : Q) (min_samples : nat) (data : list Q) (i : nat) :
  (length data < min_samples)%nat ->
  nth i (is_core min_samples (neighborhoods eps data)) false = false.
Proof.
  intros Hlen. unfold is_core, neighborhoods.
  destruct (nth_in_or_default i
              (map (fun nb => (min_samples <=? length nb)%nat)
                   (map (neighborhood eps data) data)) false) as [Hin | ->];
    [|reflexivity].
  apply in_map_iff in Hin. destruct Hin as [nb [<- Hnb]].
  apply in_map_iff in Hnb. destruct Hnb as [x [<- _]].
  apply Nat.leb_gt. pose proof (neighborhood_length eps data x). lia.
Qed.

Lemma dbscan_outer_no_core (fuel : nat) (core : list bool) (nbrs : list (list nat))
    (todo : list nat) (label_num : Z) (labels : list Z) :
  (forall i, nth i core false = false) ->
  dbscan_outer fuel core nbrs todo label_num labels = labels.
Proof.
  intros Hcore. revert label_num labels.
  induction todo as [|i todo IH]; intros label_num labels; simpl.
  - reflexivity.
  - rewrite Hcore. simpl. rewrite orb_true_r. apply IH.
Qed.

(** Fewer points than [min_samples]: every point is an outlier. *)
Lemma dbscan_labels_few (eps : Q) (min_samples : nat) (data : list Q) :
  (length data < min_samples)%nat ->
  dbscan_labels eps min_samples data = repeat (-1)%Z (length data).
Proof.
  intros Hlen. unfold dbscan_labels.
  apply dbscan_outer_no_core. intros i. now apply no_core_sample.
Qed.

Lemma filter_repeat_none {A : Type} (f : A -> bool) (x : A) (n : nat) :
  f x = false -> filter f (repeat x n) = [].
Proof.
  intros H. induction n as [|n IH]; simpl; [reflexivity|]. now rewrite H.
Qed.

(** For a radius DBSCAN accepts, what [rayleigh.fit] receives at line 102 is
    [noise_population]. *)
Lemma rayleigh_fit_receives_noise_population
    (np_sqrt : nat -> Q) (rayleigh_fit_ppf : list Q -> Q)
    (amplitudes : list Q) (min_samples : nat) (eps : Q) :
  0 < eps ->
  find_clusters_ell_amplitudes np_sqrt rayleigh_fit_ppf amplitudes min_samples (Some eps)
  = (_ <- or_value_error (list_max amplitudes) ;;
     _ <- or_value_error (list_min amplitudes) ;;
     largest <- noise_population min_samples eps amplitudes ;;
     let threshold := rayleigh_fit_ppf largest in
     m <- or_value_error
            (list_min
               (select
                  (map (fun p => (fst p =? -1)%Z &&
                                 (if Qlt_le_dec threshold (snd p) then true else false))
                       (combine (dbscan_labels eps min_samples amplitudes) amplitudes))
                  amplitudes)) ;;
     Ok (m - eps)).
Proof.
  intros Hpos. unfold find_clusters_ell_amplitudes, noise_population, dbscan_fit.
  destruct (or_value_error (list_max amplitudes)); [|reflexivity].
  destruct (or_value_error (list_min amplitudes)); [|reflexivity].
  simpl. destruct (Qlt_le_dec 0 eps) as [_|Hle]; [reflexivity|].
  exfalso. exact (Qle_not_lt _ _ Hle Hpos).
Qed.

(** C2 on two inputs.  With three amplitudes, whatever [eps], every label is
    -1 and the population handed to the Rayleigh fit is the whole input, all
    of it outliers.  With ten equal amplitudes and eleven scattered ones
    ([eps = 1/10]) the ten form cluster 0, the largest and only non-outlier
    cluster, but the label chosen is -1 and the eleven outliers are fitted. *)
Theorem outliers_fitted_as_noise_population :
  (forall eps,
      dbscan_labels eps default_min_samples few_amplitudes = [-1; -1; -1]%Z /\
      largest_cluster_label [-1; -1; -1]%Z = Ok (-1)%Z /\
      noise_population default_min_samples eps few_amplitudes = Ok few_amplitudes) /\
  (let labels := dbscan_labels (1 # 10) default_min_samples crowded_amplitudes in
   labels = (repeat 0 10 ++ repeat (-1) 11)%Z /\
   largest_non_outlier_cluster labels 0%Z /\
   largest_cluster_label labels = Ok (-1)%Z /\
   noise_population default_min_samples (1 # 10) crowded_amplitudes
     = Ok (outliers labels crowded_amplitudes) /\
   outliers labels crowded_amplitudes
     = [10; 20; 30; 40; 50; 60; 70; 80; 90; 100; 110]).
Proof.
  split.
  - intros eps.
    assert (E : dbscan_labels eps default_min_samples few_amplitudes = [-1; -1; -1]%Z).
    { rewrite dbscan_labels_few; [reflexivity | unfold default_min_samples; simpl; lia]. }
    split; [exact E|]. split; [reflexivity|].
    unfold noise_population. rewrite E. reflexivity.
  - assert (E : dbscan_labels (1 # 10) default_min_samples crowded_amplitudes
                = (repeat 0 10 ++ repeat (-1) 11)%Z) by (vm_compute; reflexivity).
    cbv zeta. unfold noise_population. rewrite E.
    split; [reflexivity|].
    split.
    { split; [discriminate|]. split; [simpl; auto|].
      intros l' Hl'.
      destruct (Z.eqb_spec l' 0) as [-> | H0]; [apply le_n|].
      assert (Ez : count_label l' (repeat 0 10 ++ repeat (-1) 11)%Z = 0%nat).
      { unfold count_label. rewrite filter_app, length_app.
        rewrite !filter_repeat_none by (apply Z.eqb_neq; assumption). reflexivity. }
      rewrite Ez. apply Nat.le_0_l. }
    split; [vm_compute; reflexivity|].
    split; vm_compute; reflexivity.
Qed.

End EstimatorFacts.

(** ** The ellipse-shape search *)

Module EllSearchFacts.
Import EllSearch Examples.

(** C3 on the code: with an amplitude threshold supplied, the local variable
    [amplitudes] is never bound, the histogram of lines 184-185 reads it, and
    the call ends in [UnboundLocalError] for every image: no candidate list
    is returned. *)
Theorem supplied_threshold_raises
    (lev_mar_fit : image -> Gaussian2D) (np_sqrt : nat -> Q)
    (rayleigh_fit_ppf : list Q -> Q) (regionprops : image -> list RegionProperties)
    (lim : shape_limits) (t_0 d_t d_dm : Q) (img : image) (a : Q) :
  search_candidates_ell lev_mar_fit np_sqrt rayleigh_fit_ppf regionprops
                        lim t_0 d_t d_dm img (Some a)
  = Raise UnboundLocalError.
Proof. reflexivity. Qed.

Lemma Rltb_true (x y : R) : Rltb x y = true <-> (x < y)%R.
Proof. unfold Rltb. destruct (Rlt_dec x y); split; intros; try easy. Qed.

(** C4, as the code has it: a fitted region is accepted if and only if
    |x_stddev| > |x_stddev_min|, |x_stddev * cos(theta)| > x_cos_theta_min,
    |y_stddev / x_stddev| < y_to_x_stddev_max, amplitude > threshold, and the
    angle in degrees modulo 180 lies strictly between theta_min and
    theta_max. *)
Theorem accepts_iff_code_accepts (lim : shape_limits) (thr : Q) (gg : Gaussian2D) :
  accepts lim thr gg = true <-> code_accepts lim thr gg.
Proof.
  unfold accepts, code_accepts.
  rewrite !andb_true_iff, !Rltb_true. unfold Rgt. tauto.
Qed.

Lemma rejects (lim : shape_limits) (thr : Q) (gg : Gaussian2D) :
  ~ code_accepts lim thr gg -> accepts lim thr gg = false.
Proof.
  intros H. destruct (accepts lim thr gg) eqn:E; [|reflexivity].
  exfalso. now apply H, accepts_iff_code_accepts.
Qed.

Lemma Q2R_Z (z : Z) : Q2R (inject_Z z) = IZR z.
Proof. unfold Q2R, inject_Z. simpl. rewrite Rinv_1, Rmult_1_r. reflexivity. Qed.

Lemma py_mod_0 (m : R) : py_mod 0 m = 0%R.
Proof.
  unfold py_mod. unfold Rdiv. rewrite Rmult_0_l.
  replace (Int_part 0) with 0%Z by (apply Int_part_spec; lra).
  lra.
Qed.

Lemma PI_gt_1 : (1 < PI)%R.
Proof. pose proof PI2_1. lra. Qed.

Lemma inv_PI_bounds : (0 < / PI < 1)%R.
Proof.
  pose proof PI_gt_1 as H. split.
  - apply Rinv_0_lt_compat. lra.
  - rewrite <- Rinv_1. apply Rinv_lt_contravar; lra.
Qed.

Lemma upright_angle : py_mod (np_rad2deg (theta upright_fit)) 180 = 0%R.
Proof.
  unfold np_rad2deg. simpl. change 0 with (inject_Z 0).
  rewrite Q2R_Z, Rmult_0_l. apply py_mod_0.
Qed.

Lemma tilted_angle : py_mod (np_rad2deg (theta tilted_fit)) 180 = (180 / PI)%R.
Proof.
  pose proof inv_PI_bounds as [H0 H1]. pose proof PI_gt_1 as HPI.
  unfold np_rad2deg. simpl. change 1 with (inject_Z 1).
  rewrite Q2R_Z, Rmult_1_l. unfold py_mod.
  assert (E : (180 / PI / 180 = / PI)%R) by (field; lra).
  rewrite E, <- (Int_part_spec (/ PI) 0); [lra|]. lra.
Qed.

(** C4, as stated, fails on two inputs.  A fit with [theta = 0] under the
    limits (0, 180) has its angle on the lower limit: the five conditions of
    the claim hold, the code rejects.  A fit with [x_stddev = 4] under the
    bound [x_stddev_min = -6] passes the first condition of the claim, and
    the code, which compares with |-6|, rejects. *)
Lemma closed_interval_and_signed_bound_fail :
  (spec_accepts any_angle_limits 3 upright_fit /\
   accepts any_angle_limits 3 upright_fit = false) /\
  (spec_accepts negative_limits 3 tilted_fit /\
   accepts negative_limits 3 tilted_fit = false).
Proof.
  assert (E310 : Q2R (3 # 10) = (3 / 10)%R) by (unfold Q2R; simpl; lra).
  split; split.
  - unfold spec_accepts. rewrite upright_angle. unfold np_cos. simpl.
    change 0 with (inject_Z 0). change 10 with (inject_Z 10).
    change 1 with (inject_Z 1). change 6 with (inject_Z 6).
    change 3 with (inject_Z 3). change 5 with (inject_Z 5).
    change 180 with (inject_Z 180).
    rewrite !Q2R_Z, E310, cos_0, Rmult_1_r.
    rewrite (Rabs_right 10) by lra.
    rewrite (Rabs_right (1 / 10)) by lra.
    lra.
  - apply rejects. intros (_ & _ & _ & _ & Hlt & _).
    rewrite upright_angle in Hlt. simpl in Hlt.
    change 0 with (inject_Z 0) in Hlt. rewrite Q2R_Z in Hlt. lra.
  - pose proof inv_PI_bounds as [H0 H1].
    unfold spec_accepts. rewrite tilted_angle. simpl.
    change 0 with (inject_Z 0). change 4 with (inject_Z 4).
    change 1 with (inject_Z 1). change (-6) with (inject_Z (-6)).
    change (-1) with (inject_Z (-1)).
    change 3 with (inject_Z 3). change 5 with (inject_Z 5).
    change 180 with (inject_Z 180).
    rewrite !Q2R_Z, E310.
    pose proof (Rabs_pos 4). pose proof (Rabs_pos (4 * np_cos (inject_Z 1))).
    rewrite (Rabs_right (1 / 4)) by lra.
    unfold Rdiv. nra.
  - apply rejects. intros (Hlt & _). simpl in Hlt.
    change 4 with (inject_Z 4) in Hlt. change (-6) with (inject_Z (-6)) in Hlt.
    rewrite !Q2R_Z in Hlt.
    rewrite (Rabs_right 4), (Rabs_left (-6)) in Hlt by lra. lra.
Qed.

End EllSearchFacts.

(** ** The candidate builder *)

Module BuilderFacts.

Lemma emit_map (t_0 d_t d_dm : Q) (objs : list SizeSearch.object) :
  SizeSearch.emit t_0 d_t d_dm objs
  = map (fun o => candidate_at t_0 d_t d_dm (SizeSearch.peak_of_object o))
        (rev (SizeSearch.lexsort objs)).
Proof.
  unfold SizeSearch.emit. rewrite fold_left_append_map. reflexivity.
Qed.

Lemma candidate_of_fit_at (t_0 d_t d_dm : Q) (prop : RegionProperties)
    (gg : Gaussian2D) :
  EllSearch.candidate_of_fit t_0 d_t d_dm prop gg
  = candidate_at t_0 d_t d_dm (EllSearch.peak_of_fit (prop, gg)).
Proof.
  unfold EllSearch.candidate_of_fit, EllSearch.peak_of_fit, candidate_at. simpl.
  destruct (bbox prop) as [[[b0 b1] b2] b3]. reflexivity.
Qed.

Lemma classify_stage_map (lev_mar_fit : image -> Gaussian2D)
    (lim : EllSearch.shape_limits) (t_0 d_t d_dm : Q)
    (props : list RegionProperties) (a : Q) (acc : list Candidate) :
  fold_left
    (fun acc prop =>
       candidates <- acc ;;
       match EllSearch.fit lev_mar_fit prop with
       | Raise _ => Ok candidates
       | Ok gg =>
           if EllSearch.accepts lim a gg then
             gg' <- EllSearch.fit lev_mar_fit prop ;;
             Ok (candidates ++ [EllSearch.candidate_of_fit t_0 d_t d_dm prop gg'])
           else Ok candidates
       end)
    props (Ok acc)
  = Ok (acc ++ map (fun pg => candidate_at t_0 d_t d_dm (EllSearch.peak_of_fit pg))
                   (EllSearch.accepted lev_mar_fit lim props a)).
Proof.
  revert acc; induction props as [|prop props IH]; intros acc; simpl.
  - now rewrite app_nil_r.
  - destruct (EllSearch.fit lev_mar_fit prop) as [gg|e] eqn:E; simpl.
    + destruct (EllSearch.accepts lim a gg); simpl.
      * rewrite IH, <- app_assoc, candidate_of_fit_at. reflexivity.
      * apply IH.
    + apply IH.
Qed.

Lemma clf_body_at (t_0 d_t d_dm : Q) (prop : RegionProperties)
    (gg : Gaussian2D) (candidates : list Candidate) :
  (let '(b0, b1, _, _) := bbox prop in
   let max_pos := (x_mean gg + Qnat b0, y_mean gg + Qnat b1) in
   candidates ++ [mkCandidate (t_0 + snd max_pos * d_t) (fst max_pos * d_dm)])
  = candidates ++ [candidate_at t_0 d_t d_dm (EllSearch.peak_of_fit (prop, gg))].
Proof.
  unfold candidate_at, EllSearch.peak_of_fit. simpl.
  destruct (bbox prop) as [[[b0 b1] b2] b3]. reflexivity.
Qed.

Lemma clf_loop_map (lev_mar_fit : image -> Gaussian2D) (t_0 d_t d_dm : Q)
    (props : list RegionProperties) (acc : list Candidate) :
  fold_left
    (fun candidates prop =>
       match ClfSearch.fit lev_mar_fit prop with
       | Raise _ => candidates
       | Ok gg =>
           let '(b0, b1, _, _) := bbox prop in
           let max_pos := (x_mean gg + Qnat b0, y_mean gg + Qnat b1) in
           candidates ++ [mkCandidate (t_0 + snd max_pos * d_t) (fst max_pos * d_dm)]
       end)
    props acc
  = acc ++ map (fun pg => candidate_at t_0 d_t d_dm (EllSearch.peak_of_fit pg))
               (ClfSearch.fitted lev_mar_fit props).
Proof.
  revert acc; induction props as [|prop props IH]; intros acc;
    cbn [fold_left ClfSearch.fitted map].
  - now rewrite app_nil_r.
  - destruct (ClfSearch.fit lev_mar_fit prop) as [gg|e] eqn:E.
    + rewrite clf_body_at, IH, <- app_assoc. reflexivity.
    + apply IH.
Qed.

(** C5: in each of the three searches every candidate is
    [CandidateBuilder t_0 d_t d_dm row col], that is
    [time = t_0 + col * d_t] and [dm = row * d_dm], at the peak [(row, col)]
    of an accepted region: the brightest pixel in the size search, the
    fitted mean moved by the corner of the box in the other two.  No search
    rounds the peak. *)
Theorem one_conversion_in_all_strategies
    (lev_mar_fit : image -> Gaussian2D) (t_0 d_t d_dm : Q) (img : image) :
  (forall ndimage_label n_d_x n_d_y empty_selection,
      SizeSearch.search_candidates ndimage_label n_d_x n_d_y t_0 d_t d_dm
        empty_selection img
      = (objs <- SizeSearch.classified_objects ndimage_label n_d_x n_d_y
                   empty_selection img ;;
         Ok (map (fun o => candidate_at t_0 d_t d_dm (SizeSearch.peak_of_object o))
                 (rev (SizeSearch.lexsort objs))))) /\
  (forall classify_data,
      ClfSearch.search_candidates_clf lev_mar_fit classify_data t_0 d_t d_dm img
      = map (fun pg => candidate_at t_0 d_t d_dm (EllSearch.peak_of_fit pg))
            (ClfSearch.fitted lev_mar_fit
               (ClfSearch.positive_props (classify_data img)))) /\
  (forall np_sqrt rayleigh_fit_ppf regionprops lim amplitude,
      EllSearch.search_candidates_ell lev_mar_fit np_sqrt rayleigh_fit_ppf
        regionprops lim t_0 d_t d_dm img amplitude
      = (st <- EllSearch.threshold_stage lev_mar_fit np_sqrt rayleigh_fit_ppf
                 (regionprops img) amplitude ;;
         _ <- EllSearch.histogram_stage (fst st) ;;
         Ok (map (fun pg => candidate_at t_0 d_t d_dm (EllSearch.peak_of_fit pg))
                 (EllSearch.accepted lev_mar_fit lim (regionprops img) (snd st))))).
Proof.
  split; [|split].
  - intros. unfold SizeSearch.search_candidates.
    destruct (SizeSearch.classified_objects _ _ _ _ _); simpl; [|reflexivity].
    now rewrite emit_map.
  - intros. unfold ClfSearch.search_candidates_clf.
    now rewrite clf_loop_map.
  - intros. unfold EllSearch.search_candidates_ell.
    destruct (EllSearch.threshold_stage _ _ _ _ _) as [st|e]; simpl; [|reflexivity].
    destruct (EllSearch.histogram_stage (fst st)); simpl; [|reflexivity].
    unfold EllSearch.classify_stage. now rewrite classify_stage_map.
Qed.

End BuilderFacts.

(** ** The preprocessor *)

Module PreprocessorFacts.
Import Preprocessor Examples.

Lemma nth_error_mapi_from {A B : Type} (f : nat -> A -> B) (l : list A) (i k : nat) :
  nth_error (mapi_from f i l) k = option_map (f (i + k)%nat) (nth_error l k).
Proof.
  revert i k; induction l as [|x l IH]; intros i k.
  - destruct k; reflexivity.
  - destruct k as [|k]; simpl.
    + now rewrite Nat.add_0_r.
    + rewrite IH. now rewrite Nat.add_succ_r.
Qed.

Lemma lookup_assign_box (bb : nat * nat * nat * nat) (v : Q) (a : image) (r c : nat) :
  lookup (assign_box bb v a) r c
  = option_map (fun x => if in_bbox bb r c then v else x) (lookup a r c).
Proof.
  unfold lookup, assign_box. rewrite nth_error_mapi_from. simpl.
  destruct (nth_error a r) as [row|]; simpl; [|reflexivity].
  now rewrite nth_error_mapi_from.
Qed.

Lemma lookup_assign_box_inside (bb : nat * nat * nat * nat) (v : Q) (a : image) (r c : nat) :
  in_bbox bb r c = true -> lookup a r c <> None ->
  lookup (assign_box bb v a) r c = Some v.
Proof.
  intros Hin Hsome. rewrite lookup_assign_box, Hin.
  destruct (lookup a r c); [reflexivity | congruence].
Qed.

Lemma lookup_assign_box_outside (bb : nat * nat * nat * nat) (v : Q) (a : image) (r c : nat) :
  in_bbox bb r c = false ->
  lookup (assign_box bb v a) r c = lookup a r c.
Proof.
  intros Hout. rewrite lookup_assign_box, Hout.
  now destruct (lookup a r c).
Qed.

Lemma filter_out_app (big1 big2 : list RegionProperties) (a : image) :
  filter_out (big1 ++ big2) a = filter_out big2 (filter_out big1 a).
Proof. unfold filter_out. apply fold_left_app. Qed.

(** Outside the boxes the array keeps its pixels. *)
Lemma filter_out_frame (big : list RegionProperties) (a : image) (r c : nat) :
  in_some_bbox big r c = false ->
  lookup (filter_out big a) r c = lookup a r c.
Proof.
  revert a; induction big as [|prop big IH]; intros a H; simpl in *.
  - reflexivity.
  - apply orb_false_iff in H. destruct H as [H1 H2].
    rewrite (IH _ H2). now apply lookup_assign_box_outside.
Qed.

Lemma big_sized_props_In (props : list RegionProperties) (max_prop_size : nat)
    (prop : RegionProperties) :
  In prop (big_sized_props props max_prop_size)
  <-> In prop props /\ (max_prop_size < area prop)%nat.
Proof.
  unfold big_sized_props. rewrite filter_In, Nat.ltb_lt. reflexivity.
Qed.

(** The array keeps its shape: a pixel of the input is a pixel of the
    result. *)
Lemma filter_out_defined (big : list RegionProperties) (a : image) (r c : nat) :
  lookup a r c <> None -> lookup (filter_out big a) r c <> None.
Proof.
  revert a; induction big as [|prop big IH]; intros a H; simpl.
  - exact H.
  - apply IH. rewrite lookup_assign_box.
    destruct (lookup a r c); [discriminate | congruence].
Qed.

(** C6 as stated fails on the strip [[3; 0; 9]] with two oversized regions
    of one pixel each: the box of the second region is filled with 13/3,
    the mean of [[4; 0; 9]], the array that already carries the first box.
    That is neither the mean of the image passed in, 4, nor the mean of the
    image the call leaves behind. *)
Lemma later_box_misses_global_mean :
  let final := snd (create_ellipses keep_filter low_percentile keep_opening spot_props
                      3 mean [] 0 spotted_image (Some 1) None) in
  exists prop v,
    In prop (spot_props (smooth_threshold_open keep_filter low_percentile keep_opening
                           3 mean [] spotted_image 1)) /\
    (0 < area prop)%nat /\
    in_bbox (bbox prop) 0 2 = true /\
    lookup final 0 2 = Some v /\
    v == 13 # 3 /\
    np_mean spotted_image == 4 /\
    ~ v == np_mean spotted_image /\
    ~ v == np_mean final.
Proof.
  cbv zeta.
  exists (mkProp 2 (0, 2, 1, 3)%nat 1 [[9]]). eexists.
  split; [simpl; right; left; reflexivity|].
  split; [simpl; lia|].
  split; [reflexivity|].
  split; [vm_compute; reflexivity|].
  split; [reflexivity|]. split; [reflexivity|].
  split; intros H; vm_compute in H; discriminate H.
Qed.

Section Facts.

Variable statistic_filter : statistic -> image -> Q -> image.
Variable np_percentile : list Q -> Q -> Q.
Variable opening : image -> image -> image.
Variable regionprops : image -> list RegionProperties.
Variable disk_size : Q.
Variable stat : statistic.
Variable opening_selem : image.
Variable max_prop_size : nat.

Local Notation "'opened'" :=
  (smooth_threshold_open statistic_filter np_percentile opening
     disk_size stat opening_selem).
Local Notation "'big'" :=
  (oversized statistic_filter np_percentile opening regionprops
     disk_size stat opening_selem max_prop_size).
Local Notation "'run'" :=
  (create_ellipses statistic_filter np_percentile opening regionprops
     disk_size stat opening_selem max_prop_size).

Lemma final_input (tdm_image : image) (big_perc : Q) (perc : option Q) :
  snd (run tdm_image (Some big_perc) perc)
  = filter_out (big tdm_image big_perc) tdm_image.
Proof.
  unfold create_ellipses. destruct perc; reflexivity.
Qed.

Lemma final_input_no_big_perc (tdm_image : image) (perc : option Q) :
  snd (run tdm_image None perc) = tdm_image.
Proof.
  unfold create_ellipses. destruct perc; reflexivity.
Qed.

(** C6, as the code has it: every region of the opened, thresholded image
    with more than [max_prop_size] pixels is among the regions filtered
    out, in the order of [regionprops].  When its turn comes every pixel of
    its box in the input array is overwritten with the mean over the whole
    array as it stands then, which is the input with the boxes of the
    oversized regions before it already written ([before]); for the first
    oversized region that is the input itself.  A pixel of the box that no
    later oversized box covers still holds that mean when the call
    returns. *)
Theorem oversized_box_gets_running_mean
    (tdm_image : image) (big_perc : Q) (perc : option Q) (prop : RegionProperties) :
  In prop (regionprops (opened tdm_image big_perc)) ->
  (max_prop_size < area prop)%nat ->
  exists done rest,
    big tdm_image big_perc = done ++ prop :: rest /\
    let before := filter_out done tdm_image in
    let after := assign_box (bbox prop) (np_mean before) before in
    let final := snd (run tdm_image (Some big_perc) perc) in
    (forall r c, in_some_bbox done r c = false ->
                 lookup before r c = lookup tdm_image r c) /\
    (done = [] -> before = tdm_image) /\
    final = filter_out rest after /\
    forall r c,
      in_bbox (bbox prop) r c = true -> lookup tdm_image r c <> None ->
      lookup after r c = Some (np_mean before) /\
      (in_some_bbox rest r c = false -> lookup final r c = Some (np_mean before)).
Proof.
  intros Hin Harea.
  assert (Hbig : In prop (big tdm_image big_perc)).
  { unfold oversized. apply big_sized_props_In. split; assumption. }
  destruct (in_split _ _ Hbig) as [done [rest E]].
  exists done, rest. split; [exact E|].
  cbv zeta.
  assert (Hfinal : snd (run tdm_image (Some big_perc) perc)
                   = filter_out rest
                       (assign_box (bbox prop) (np_mean (filter_out done tdm_image))
                                   (filter_out done tdm_image))).
  { rewrite final_input, E, filter_out_app. reflexivity. }
  split; [|split; [|split]].
  - intros r c H. now apply filter_out_frame.
  - intros ->. reflexivity.
  - exact Hfinal.
  - intros r c Hbox Hsome.
    assert (Hafter : lookup (assign_box (bbox prop) (np_mean (filter_out done tdm_image))
                                        (filter_out done tdm_image)) r c
                     = Some (np_mean (filter_out done tdm_image))).
    { apply lookup_assign_box_inside; [exact Hbox | now apply filter_out_defined]. }
    split; [exact Hafter|].
    intros Hrest. rewrite Hfinal, filter_out_frame by exact Hrest. exact Hafter.
Qed.

(** C10: the array the caller passed in differs, after the call, from
    what it was only at pixels inside the box of some oversized region of
    the opened big-threshold image; with no such region, and also with no
    big threshold, it is unchanged. *)
Theorem input_changed_only_in_oversized_boxes
    (tdm_image : image) (big_perc perc : option Q) :
  let touched :=
    match big_perc with
    | Some p => big tdm_image p
    | None => []
    end in
  let final := snd (run tdm_image big_perc perc) in
  (forall r c, in_some_bbox touched r c = false ->
               lookup final r c = lookup tdm_image r c) /\
  (touched = [] -> final = tdm_image).
Proof.
  cbv zeta. destruct big_perc as [p|].
  - rewrite final_input. split.
    + intros r c H. now apply filter_out_frame.
    + intros ->. reflexivity.
  - rewrite final_input_no_big_perc. split; reflexivity.
Qed.

End Facts.

Lemma oversized_box_gets_running_mean_witness :
  In bright_block (one_block (smooth_threshold_open keep_filter low_percentile
                                keep_opening 3 mean [] striped_image (5 # 2))) /\
  (1 < area bright_block)%nat /\
  in_bbox (bbox bright_block) 0 1 = true /\
  lookup striped_image 0 1 <> None /\
  lookup (snd (create_ellipses keep_filter low_percentile keep_opening one_block
                 3 mean [] 1 striped_image (Some (5 # 2)) None)) 0 1
  = Some (np_mean striped_image).
Proof.
  assert (H1 : In bright_block
                 (one_block (smooth_threshold_open keep_filter low_percentile
                               keep_opening 3 mean [] striped_image (5 # 2))))
    by (simpl; left; reflexivity).
  assert (H2 : (1 < area bright_block)%nat) by (simpl; lia).
  assert (H3 : in_bbox (bbox bright_block) 0 1 = true) by reflexivity.
  assert (H4 : lookup striped_image 0 1 <> None) by discriminate.
  split; [exact H1|]. split; [exact H2|]. split; [exact H3|]. split; [exact H4|].
  destruct (oversized_box_gets_running_mean keep_filter low_percentile keep_opening
              one_block 3 mean [] 1 striped_image (5 # 2) None bright_block H1 H2)
    as (done & rest & E & _ & _ & _ & Hpix).
  destruct done as [|p0 done]; [|destruct done; discriminate E].
  injection E as <-.
  exact (proj2 (Hpix 0%nat 1%nat H3 H4) eq_refl).
Defined.

Lemma input_changed_only_in_oversized_boxes_witness :
  in_some_bbox (oversized keep_filter low_percentile keep_opening one_block
                  3 mean [] 1 striped_image (5 # 2)) 1 2 = false /\
  lookup (snd (create_ellipses keep_filter low_percentile keep_opening one_block
                 3 mean [] 1 striped_image (Some (5 # 2)) None)) 1 2
  = lookup striped_image 1 2.
Proof.
  split; [reflexivity|].
  apply (proj1 (input_changed_only_in_oversized_boxes keep_filter low_percentile
                  keep_opening one_block 3 mean [] 1 striped_image (Some (5 # 2)) None)).
  reflexivity.
Defined.

End PreprocessorFacts.

(** ** The size-threshold search *)

Module SizeSearchFacts.
Import SizeSearch Examples.

(** *** Where a label sits *)

Lemma In_combine_seq {A : Type} (row : list A) (s c : nat) (x : A) :
  In (c, x) (combine (seq s (length row)) row)
  <-> (s <= c)%nat /\ nth_error row (c - s) = Some x.
Proof.
  revert s; induction row as [|y row IH]; intros s; simpl.
  - split; [intros [] | intros [_ H]]. destruct (c - s)%nat; discriminate.
  - rewrite IH. split.
    + intros [E | [Hle Hn]].
      * injection E as -> ->. split; [lia|]. now rewrite Nat.sub_diag.
      * split; [lia|]. replace (c - s)%nat with (S (c - S s)) by lia. exact Hn.
    + intros [Hle Hn]. destruct (Nat.eq_dec s c) as [-> | Hne].
      * left. rewrite Nat.sub_diag in Hn. simpl in Hn. congruence.
      * right. split; [lia|].
        replace (c - s)%nat with (S (c - S s)) in Hn by lia. exact Hn.
Qed.

Lemma In_row_positions (l r : nat) (row : list nat) (p : nat * nat) :
  In p (row_positions l r row)
  <-> fst p = r /\ nth_error row (snd p) = Some l.
Proof.
  unfold row_positions. rewrite in_map_iff. split.
  - intros [c [<- Hc]]. simpl. split; [reflexivity|].
    apply in_map_iff in Hc. destruct Hc as [[c' x] [Ec Hin]]. simpl in Ec. subst c'.
    apply filter_In in Hin. destruct Hin as [Hin Hx]. simpl in Hx.
    apply Nat.eqb_eq in Hx. subst x.
    apply In_combine_seq in Hin. destruct Hin as [_ Hn].
    now rewrite Nat.sub_0_r in Hn.
  - destruct p as [r' c]. simpl. intros [-> Hn]. exists c. split; [reflexivity|].
    apply in_map_iff. exists (c, l). split; [reflexivity|].
    apply filter_In. split; [|simpl; apply Nat.eqb_refl].
    apply In_combine_seq. split; [lia|]. now rewrite Nat.sub_0_r.
Qed.

Lemma In_positions_from (l r0 : nat) (labeled : label_image) (p : nat * nat) :
  In p (positions_from l r0 labeled)
  <-> (r0 <= fst p)%nat /\
      exists row, nth_error labeled (fst p - r0) = Some row /\
                  nth_error row (snd p) = Some l.
Proof.
  revert r0; induction labeled as [|row0 labeled IH]; intros r0; simpl.
  - split; [intros [] | intros [_ [row [H _]]]]. destruct (fst p - r0)%nat; discriminate.
  - rewrite in_app_iff, In_row_positions, IH. split.
    + intros [[E Hn] | [Hle [row [Hr Hn]]]].
      * split; [lia|]. exists row0. rewrite E, Nat.sub_diag. now split.
      * split; [lia|]. exists row.
        replace (fst p - r0)%nat with (S (fst p - S r0)) by lia. now split.
    + intros [Hle [row [Hr Hn]]]. destruct (Nat.eq_dec (fst p) r0) as [E | Hne].
      * left. rewrite E, Nat.sub_diag in Hr. simpl in Hr.
        injection Hr as ->. now split.
      * right. split; [lia|]. exists row.
        replace (fst p - r0)%nat with (S (fst p - S r0)) in Hr by lia. now split.
Qed.

(** The positions of a label are the pixels that carry it. *)
Lemma In_positions_of (l : nat) (labeled : label_image) (p : nat * nat) :
  In p (positions_of l labeled)
  <-> exists row, nth_error labeled (fst p) = Some row /\
                  nth_error row (snd p) = Some l.
Proof.
  unfold positions_of. rewrite In_positions_from, Nat.sub_0_r.
  split; [intros [_ H]; exact H | intros H; split; [lia | exact H]].
Qed.

(** *** The box of a label *)

Lemma fold_min_spec (xs : list nat) (x0 : nat) :
  In (fold_left Nat.min xs x0) (x0 :: xs) /\
  forall x, In x (x0 :: xs) -> (fold_left Nat.min xs x0 <= x)%nat.
Proof.
  revert x0; induction xs as [|y xs IH]; intros x0; simpl.
  - split; [now left | intros x [<- | []]; lia].
  - destruct (IH (Nat.min x0 y)) as [Hin Hle]. split.
    + simpl in Hin. destruct Hin as [Hin | Hin]; [|auto].
      rewrite <- Hin. destruct (Nat.min_spec x0 y) as [[_ ->] | [_ ->]]; auto.
    + intros x [<- | [<- | Hx]].
      * specialize (Hle (Nat.min x0 y) (or_introl eq_refl)). lia.
      * specialize (Hle (Nat.min x0 y) (or_introl eq_refl)). lia.
      * apply Hle. now right.
Qed.

Lemma fold_max_spec (xs : list nat) (x0 : nat) :
  In (fold_left Nat.max xs x0) (x0 :: xs) /\
  forall x, In x (x0 :: xs) -> (x <= fold_left Nat.max xs x0)%nat.
Proof.
  revert x0; induction xs as [|y xs IH]; intros x0; simpl.
  - split; [now left | intros x [<- | []]; lia].
  - destruct (IH (Nat.max x0 y)) as [Hin Hle]. split.
    + simpl in Hin. destruct Hin as [Hin | Hin]; [|auto].
      rewrite <- Hin. destruct (Nat.max_spec x0 y) as [[_ ->] | [_ ->]]; auto.
    + intros x [<- | [<- | Hx]].
      * specialize (Hle (Nat.max x0 y) (or_introl eq_refl)). lia.
      * specialize (Hle (Nat.max x0 y) (or_introl eq_refl)). lia.
      * apply Hle. now right.
Qed.

(** The slices of [find_objects] hold every pixel of the label, and each of
    their four sides meets the region. *)
Lemma object_slices_bounding_box (labeled : label_image) (l r0 r1 c0 c1 : nat) :
  object_slices labeled l = Some ((r0, r1), (c0, c1)) ->
  (forall p, In p (positions_of l labeled) ->
             (r0 <= fst p < r1)%nat /\ (c0 <= snd p < c1)%nat) /\
  (exists p, In p (positions_of l labeled) /\ fst p = r0) /\
  (exists p, In p (positions_of l labeled) /\ S (fst p) = r1) /\
  (exists p, In p (positions_of l labeled) /\ snd p = c0) /\
  (exists p, In p (positions_of l labeled) /\ S (snd p) = c1).
Proof.
  unfold object_slices, extent.
  destruct (positions_of l labeled) as [|[pr pc] ps]; [discriminate|].
  intros E. injection E as <- <- <- <-.
  destruct (fold_min_spec (map fst ps) pr) as [Hrmin_in Hrmin].
  destruct (fold_max_spec (map fst ps) pr) as [Hrmax_in Hrmax].
  destruct (fold_min_spec (map snd ps) pc) as [Hcmin_in Hcmin].
  destruct (fold_max_spec (map snd ps) pc) as [Hcmax_in Hcmax].
  assert (Hfst : forall p, In p ((pr, pc) :: ps) -> In (fst p) (pr :: map fst ps)).
  { intros p [<- | Hp]; [now left | right; now apply in_map]. }
  assert (Hsnd : forall p, In p ((pr, pc) :: ps) -> In (snd p) (pc :: map snd ps)).
  { intros p [<- | Hp]; [now left | right; now apply in_map]. }
  assert (Hback1 : forall x, In x (pr :: map fst ps) ->
                             exists p, In p ((pr, pc) :: ps) /\ fst p = x).
  { intros x [<- | Hx].
    - exists (pr, pc). split; [now left | reflexivity].
    - apply in_map_iff in Hx. destruct Hx as [p [<- Hp]].
      exists p. split; [now right | reflexivity]. }
  assert (Hback2 : forall x, In x (pc :: map snd ps) ->
                             exists p, In p ((pr, pc) :: ps) /\ snd p = x).
  { intros x [<- | Hx].
    - exists (pr, pc). split; [now left | reflexivity].
    - apply in_map_iff in Hx. destruct Hx as [p [<- Hp]].
      exists p. split; [now right | reflexivity]. }
  split; [|split; [|split; [|split]]].
  - intros p Hp.
    pose proof (Hrmin _ (Hfst p Hp)). pose proof (Hrmax _ (Hfst p Hp)).
    pose proof (Hcmin _ (Hsnd p Hp)). pose proof (Hcmax _ (Hsnd p Hp)). lia.
  - apply Hback1, Hrmin_in.
  - destruct (Hback1 _ Hrmax_in) as [p [Hp E]]. exists p. split; [exact Hp | now rewrite E].
  - apply Hback2, Hcmin_in.
  - destruct (Hback2 _ Hcmax_in) as [p [Hp E]]. exists p. split; [exact Hp | now rewrite E].
Qed.

(** *** Peak of a region *)

Lemma brighter_cases (img : image) (best p : nat * nat) :
  (brighter img best p = best \/ brighter img best p = p) /\
  pixel img best <= pixel img (brighter img best p) /\
  pixel img p <= pixel img (brighter img best p).
Proof.
  unfold brighter. destruct (Qlt_le_dec (pixel img best) (pixel img p)) as [H|H].
  - split; [now right|]. split; [now apply Qlt_le_weak | apply Qle_refl].
  - split; [now left|]. split; [apply Qle_refl | exact H].
Qed.

Lemma fold_brighter (img : image) (ps : list (nat * nat)) (p0 : nat * nat) :
  In (fold_left (brighter img) ps p0) (p0 :: ps) /\
  forall q, In q (p0 :: ps) -> pixel img q <= pixel img (fold_left (brighter img) ps p0).
Proof.
  revert p0; induction ps as [|p ps IH]; intros p0; simpl.
  - split; [now left|]. intros q [<-|[]]. apply Qle_refl.
  - destruct (IH (brighter img p0 p)) as [Hin Hmax].
    destruct (brighter_cases img p0 p) as [Hc [H0 Hp]].
    split.
    + simpl in Hin. destruct Hin as [Hin|Hin]; [|auto].
      rewrite <- Hin. destruct Hc as [-> | ->]; auto.
    + intros q [<-|[<-|Hq]].
      * eapply Qle_trans; [exact H0|]. apply Hmax. now left.
      * eapply Qle_trans; [exact Hp|]. apply Hmax. now left.
      * apply Hmax. now right.
Qed.

Lemma maximum_position_is_peak (img : image) (labeled : label_image) (l : nat) :
  positions_of l labeled <> [] ->
  is_peak_of img labeled l (maximum_position img labeled l).
Proof.
  unfold is_peak_of, maximum_position. intros Hne.
  destruct (positions_of l labeled) as [|p0 ps]; [congruence|].
  apply (fold_brighter img ps p0).
Qed.

(** *** The records that pass *)

Lemma slice_extents_present (labeled : label_image) (ls : list nat) :
  (forall l, In l ls -> positions_of l labeled <> []) ->
  slice_extents (map (object_slices labeled) ls) = Ok (map (extents labeled) ls).
Proof.
  induction ls as [|l ls IH]; intros H; simpl.
  - reflexivity.
  - assert (Hl : positions_of l labeled <> []) by (apply H; now left).
    unfold extents at 1.
    destruct (object_slices labeled l) as [[[r0 r1] [c0 c1]]|] eqn:Eo.
    + rewrite IH by (intros; apply H; now right). reflexivity.
    + unfold object_slices in Eo.
      destruct (positions_of l labeled) as [|[r0 c0] ps]; [congruence|discriminate].
Qed.

Lemma well_labelled_present (labeled : label_image) (n l : nat) :
  well_labelled labeled n -> (1 <= l <= n)%nat -> positions_of l labeled <> [].
Proof.
  intros [_ Hall] Hl Hnil. destruct (Hall l Hl) as [p Hp].
  rewrite Hnil in Hp. exact Hp.
Qed.

Section Facts.

Variable ndimage_label : image -> label_image * nat.
Variables n_d_x n_d_y : Q.
Variable empty_selection : result (list object).

Lemma sized_objects_well_labelled (img : image) (labeled : label_image) (n : nat) :
  ndimage_label img = (labeled, n) -> well_labelled labeled n ->
  sized_objects ndimage_label n_d_x n_d_y img
  = Ok (map (fun l => (l, extents labeled l))
            (filter (fun l => classify n_d_x n_d_y (extents labeled l)) (seq 1 n))).
Proof.
  intros E Hwl. unfold sized_objects. rewrite E.
  unfold find_objects. rewrite (proj1 Hwl).
  rewrite slice_extents_present.
  2:{ intros l Hl. apply in_seq in Hl.
      apply (well_labelled_present labeled n); [exact Hwl | lia]. }
  simpl. rewrite length_map, length_seq, Nat.eqb_refl. simpl.
  rewrite combine_map_r. f_equal.
  induction (seq 1 n) as [|l ls IH]; simpl; [reflexivity|].
  destruct (classify n_d_x n_d_y (extents labeled l)); simpl; now rewrite IH.
Qed.

Lemma classify_iff (labeled : label_image) (l : nat) :
  classify n_d_x n_d_y (extents labeled l) = true
  <-> n_d_y < Qnat (bbox_height labeled l) /\ n_d_x < Qnat (bbox_width labeled l).
Proof.
  unfold classify, bbox_height, bbox_width.
  rewrite andb_true_iff, !Qlt_le_dec_true. reflexivity.
Qed.

(** C7: on a labelling with the labels 1 .. n, the size test keeps region
    [l] if and only if the height of its box is greater than [n_d_y] and
    the width greater than [n_d_x]; when some region is kept, the search
    goes on with one record for each kept region, which carries these two
    extents and, as its peak, [maximum_position] asked for the label of
    the region: a pixel of the region at which the image is largest on the
    region. *)
Theorem size_threshold_accepts_tall_wide_regions
    (img : image) (labeled : label_image) (n : nat) :
  ndimage_label img = (labeled, n) -> well_labelled labeled n ->
  exists kept,
    sized_objects ndimage_label n_d_x n_d_y img = Ok kept /\
    (forall l, (1 <= l <= n)%nat ->
       (In l (map fst kept) <->
        (n_d_y < Qnat (bbox_height labeled l) /\
         n_d_x < Qnat (bbox_width labeled l)))) /\
    (kept <> [] ->
     exists objs,
       classified_objects ndimage_label n_d_x n_d_y empty_selection img = Ok objs /\
       map obj_label objs = map fst kept /\
       forall o, In o objs ->
         (1 <= obj_label o <= n)%nat /\
         dy o = bbox_height labeled (obj_label o) /\
         dx o = bbox_width labeled (obj_label o) /\
         max_pos o = maximum_position img labeled (obj_label o) /\
         is_peak_of img labeled (obj_label o) (max_pos o)).
Proof.
  intros E Hwl. eexists.
  split; [exact (sized_objects_well_labelled img labeled n E Hwl)|].
  split.
  - intros l Hl. rewrite <- classify_iff, map_map. simpl. rewrite map_id.
    rewrite filter_In, in_seq. split; [intros [_ H]; exact H | intros H; split; [lia | exact H]].
  - intros Hne. unfold classified_objects.
    rewrite (sized_objects_well_labelled img labeled n E Hwl), E. simpl.
    destruct (map (fun l => (l, extents labeled l))
                  (filter (fun l => classify n_d_x n_d_y (extents labeled l)) (seq 1 n)))
      as [|k kept] eqn:Ek; [congruence|].
    eexists. split; [reflexivity|]. split.
    + rewrite map_map. reflexivity.
    + intros o Ho. apply in_map_iff in Ho. destruct Ho as [le [<- Hle]]. simpl.
      rewrite <- Ek in Hle. apply in_map_iff in Hle.
      destruct Hle as [l [<- Hl]]. simpl.
      apply filter_In in Hl. destruct Hl as [Hl _]. apply in_seq in Hl.
      split; [lia|]. split; [reflexivity|]. split; [reflexivity|].
      split; [reflexivity|].
      apply maximum_position_is_peak.
      apply (well_labelled_present labeled n); [exact Hwl | lia].
Qed.

End Facts.

Lemma two_blobs_well_labelled : well_labelled two_blobs_labels 2.
Proof.
  split; [reflexivity|].
  intros l Hl. assert (C : l = 1%nat \/ l = 2%nat) by lia.
  destruct C as [-> | ->]; [exists (0, 0)%nat | exists (1, 3)%nat]; simpl; auto.
Defined.

Lemma size_threshold_accepts_tall_wide_regions_witness :
  label_two_blobs two_blobs = (two_blobs_labels, 2%nat) /\
  well_labelled two_blobs_labels 2 /\
  exists kept,
    sized_objects label_two_blobs 1 1 two_blobs = Ok kept /\
    (forall l, (1 <= l <= 2)%nat ->
       (In l (map fst kept) <->
        (1 < Qnat (bbox_height two_blobs_labels l) /\
         1 < Qnat (bbox_width two_blobs_labels l)))) /\
    (kept <> [] ->
     exists objs,
       classified_objects label_two_blobs 1 1 (Raise ValueError) two_blobs = Ok objs /\
       map obj_label objs = map fst kept /\
       forall o, In o objs ->
         (1 <= obj_label o <= 2)%nat /\
         dy o = bbox_height two_blobs_labels (obj_label o) /\
         dx o = bbox_width two_blobs_labels (obj_label o) /\
         max_pos o = maximum_position two_blobs two_blobs_labels (obj_label o) /\
         is_peak_of two_blobs two_blobs_labels (obj_label o) (max_pos o)).
Proof.
  split; [reflexivity|]. split; [exact two_blobs_well_labelled|].
  exact (size_threshold_accepts_tall_wide_regions label_two_blobs 1 1 (Raise ValueError)
           two_blobs two_blobs_labels 2 eq_refl two_blobs_well_labelled).
Defined.

(** The run on the example: the 2 x 2 region passes with its peak at
    (1, 1), where the image is 7; the single pixel does not. *)
Lemma two_blobs_search :
  sized_objects label_two_blobs 1 1 two_blobs = Ok [(1, (2, 2))]%nat /\
  search_candidates label_two_blobs 1 1 100 (1 # 1000) 30 (Raise ValueError) two_blobs
  = Ok [CandidateBuilder 100 (1 # 1000) 30 1 1].
Proof. split; reflexivity. Qed.

End SizeSearchFacts.

(** ** The order of the candidates *)

Module RankingFacts.
Import SizeSearch Examples.

Lemma key_le_iff (a b : object) :
  key_le a b = true <-> (dy a < dy b)%nat \/ (dy a = dy b /\ (dx a <= dx b)%nat).
Proof.
  unfold key_le.
  rewrite orb_true_iff, andb_true_iff, Nat.ltb_lt, Nat.eqb_eq, Nat.leb_le.
  reflexivity.
Qed.

Lemma key_le_total (a b : object) : key_le a b = false -> key_le b a = true.
Proof.
  intros H. apply key_le_iff.
  destruct (key_le b a) eqn:E; [now apply key_le_iff|].
  assert (Ha : ~ ((dy a < dy b)%nat \/ (dy a = dy b /\ (dx a <= dx b)%nat)))
    by (rewrite <- key_le_iff; congruence).
  assert (Hb : ~ ((dy b < dy a)%nat \/ (dy b = dy a /\ (dx b <= dx a)%nat)))
    by (rewrite <- key_le_iff; congruence).
  lia.
Qed.

Lemma key_le_trans (a b c : object) :
  key_le a b = true -> key_le b c = true -> key_le a c = true.
Proof. rewrite !key_le_iff. lia. Qed.

Lemma ranked_before_iff (a b : object) : ranked_before a b <-> key_le b a = true.
Proof. unfold ranked_before. rewrite key_le_iff. lia. Qed.

Lemma insert_object_perm (o : object) (l : list object) :
  Permutation (insert_object o l) (o :: l).
Proof.
  induction l as [|x l IH]; simpl.
  - apply Permutation_refl.
  - destruct (key_le o x).
    + apply Permutation_refl.
    + eapply Permutation_trans; [apply perm_skip, IH | apply perm_swap].
Qed.

Lemma lexsort_perm (l : list object) : Permutation (lexsort l) l.
Proof.
  induction l as [|o l IH]; simpl.
  - constructor.
  - eapply Permutation_trans; [apply insert_object_perm | now apply perm_skip].
Qed.

Lemma insert_object_sorted (o : object) (l : list object) :
  StronglySorted ascending l -> StronglySorted ascending (insert_object o l).
Proof.
  induction l as [|x l IH]; intros Hs; simpl.
  - repeat constructor.
  - apply StronglySorted_inv in Hs. destruct Hs as [Hl Hx].
    destruct (key_le o x) eqn:E.
    + constructor; [constructor; assumption|].
      constructor; [exact E|].
      eapply Forall_impl; [|exact Hx].
      intros y Hy. unfold ascending in *. eapply key_le_trans; eassumption.
    + constructor; [now apply IH|].
      rewrite Forall_forall. intros y Hy.
      apply (Permutation_in _ (insert_object_perm o l)) in Hy.
      destruct Hy as [<-|Hy].
      * now apply key_le_total.
      * rewrite Forall_forall in Hx. now apply Hx.
Qed.

Lemma lexsort_sorted (l : list object) : StronglySorted ascending (lexsort l).
Proof.
  induction l as [|o l IH]; simpl.
  - constructor.
  - now apply insert_object_sorted.
Qed.

Lemma StronglySorted_snoc {A : Type} (R : A -> A -> Prop) (l : list A) (x : A) :
  StronglySorted R l -> Forall (fun y => R y x) l -> StronglySorted R (l ++ [x]).
Proof.
  induction l as [|y l IH]; intros Hs Hf; simpl.
  - repeat constructor.
  - apply StronglySorted_inv in Hs. destruct Hs as [Hl Hy].
    inversion Hf as [|? ? Hyx Hf']; subst.
    constructor; [now apply IH|].
    apply Forall_app. split; [assumption | now constructor].
Qed.

Lemma StronglySorted_rev {A : Type} (R : A -> A -> Prop) (l : list A) :
  StronglySorted R l -> StronglySorted (fun a b => R b a) (rev l).
Proof.
  induction 1 as [|x l Hs IH Hx]; simpl.
  - constructor.
  - apply StronglySorted_snoc; [exact IH|].
    rewrite Forall_forall in *. intros y Hy. apply Hx. now apply in_rev.
Qed.

Lemma rev_lexsort_ranked (l : list object) :
  StronglySorted ranked_before (rev (lexsort l)).
Proof.
  pose proof (StronglySorted_rev _ _ (lexsort_sorted l)) as H.
  induction H as [|x r Hs IH Hx]; constructor; try assumption.
  eapply Forall_impl; [|exact Hx].
  intros y Hy. now apply ranked_before_iff.
Qed.

(** C8: the candidates come out in the order of the accepted regions
    rearranged so that every region stands before those that are less tall
    and before those equally tall that are no wider; regions of (height,
    width) (10, 2), (5, 8), (10, 5) come out as (10, 5), (10, 2), (5, 8). *)
Theorem candidates_ranked_by_height_then_width :
  (forall t_0 d_t d_dm objs,
      exists ranked,
        emit t_0 d_t d_dm objs = map (candidate_of_object t_0 d_t d_dm) ranked /\
        Permutation objs ranked /\
        StronglySorted ranked_before ranked) /\
  map height_width (rev (lexsort three_regions))
  = [(10, 5); (10, 2); (5, 8)]%nat.
Proof.
  split; [|reflexivity].
  intros t_0 d_t d_dm objs. exists (rev (lexsort objs)).
  split; [|split].
  - unfold emit. rewrite fold_left_append_map. reflexivity.
  - eapply Permutation_trans; [apply Permutation_sym, lexsort_perm | apply Permutation_rev].
  - apply rev_lexsort_ranked.
Qed.

End RankingFacts.

(** ** More on the amplitude threshold estimator *)

Module EstimatorMoreFacts.
Import Estimator EstimatorSpec MoreExamples.

(** *** [np.unique(labels, return_counts=True)] *)

Lemma lookup_count_insert (l x : Z) (uc : list (Z * nat)) :
  lookup_count l (insert_count x uc)
  = (lookup_count l uc + (if (x =? l)%Z then 1 else 0))%nat.
Proof.
  induction uc as [|[y c] uc IH]; simpl.
  - destruct (x =? l)%Z; lia.
  - destruct (Z.compare_spec x y) as [E | L | G]; simpl.
    + subst y. destruct (x =? l)%Z; lia.
    + destruct (x =? l)%Z; destruct (y =? l)%Z; lia.
    + rewrite IH. destruct (x =? l)%Z; destruct (y =? l)%Z; lia.
Qed.

Lemma lookup_count_unique_counts (l : Z) (labels : list Z) :
  lookup_count l (np_unique_counts labels) = count_label l labels.
Proof.
  unfold count_label. induction labels as [|x labels IH]; simpl.
  - reflexivity.
  - rewrite lookup_count_insert, IH. rewrite (Z.eqb_sym x l).
    destruct (l =? x)%Z; simpl; lia.
Qed.

Lemma insert_count_keys (x : Z) (uc : list (Z * nat)) (p : Z * nat) :
  In p (insert_count x uc) -> fst p = x \/ In (fst p) (map fst uc).
Proof.
  induction uc as [|[y c] uc IH]; simpl.
  - intros [<- | []]. now left.
  - destruct (Z.compare_spec x y) as [E | L | G]; simpl.
    + intros [<- | H]; simpl; [right; now left|]. right. right. now apply in_map.
    + intros [<- | [<- | H]]; simpl; auto. right. right. now apply in_map.
    + intros [<- | H]; simpl; [right; now left|].
      destruct (IH H) as [E | E]; auto.
Qed.

Lemma insert_count_sorted (x : Z) (uc : list (Z * nat)) :
  StronglySorted (fun a b => (fst a < fst b)%Z) uc ->
  StronglySorted (fun a b => (fst a < fst b)%Z) (insert_count x uc).
Proof.
  induction uc as [|[y c] uc IH]; intros Hs; simpl.
  - repeat constructor.
  - apply StronglySorted_inv in Hs. destruct Hs as [Hs Hy].
    destruct (Z.compare_spec x y) as [E | L | G].
    + constructor; assumption.
    + constructor; [constructor; assumption|].
      constructor; [exact L|].
      eapply Forall_impl; [|exact Hy]. simpl. intros; lia.
    + constructor; [now apply IH|].
      rewrite Forall_forall. intros p Hp.
      destruct (insert_count_keys x uc p Hp) as [E | E]; simpl; [lia|].
      apply in_map_iff in E. destruct E as [q [Eq Hq]].
      rewrite Forall_forall in Hy. specialize (Hy q Hq). simpl in Hy. lia.
Qed.

Lemma unique_counts_sorted (labels : list Z) :
  StronglySorted (fun a b => (fst a < fst b)%Z) (np_unique_counts labels).
Proof.
  induction labels as [|x labels IH]; simpl; [constructor | now apply insert_count_sorted].
Qed.

(** In a list with ascending labels the entry of a label carries its
    count. *)
Lemma sorted_entry_count (uc : list (Z * nat)) (i : nat) (p : Z * nat) :
  StronglySorted (fun a b => (fst a < fst b)%Z) uc ->
  nth_error uc i = Some p -> lookup_count (fst p) uc = snd p.
Proof.
  intros Hs. revert i. induction Hs as [|q uc Hs IH Hq]; intros i Hi.
  - destruct i; discriminate.
  - assert (Hout : forall r, In r uc -> (fst q < fst r)%Z)
      by (rewrite Forall_forall in Hq; exact Hq).
    destruct i as [|i]; simpl in *.
    + injection Hi as ->. rewrite Z.eqb_refl.
      assert (Z0 : lookup_count (fst p) uc = 0%nat).
      { clear IH Hs Hq. induction uc as [|r uc IH]; simpl; [reflexivity|].
        destruct (Z.eqb_spec (fst r) (fst p)) as [E | E].
        - specialize (Hout r (or_introl eq_refl)). lia.
        - apply IH. intros r' Hr'. apply Hout. now right. }
      lia.
    + destruct (Z.eqb_spec (fst q) (fst p)) as [E | E].
      * apply nth_error_In in Hi. specialize (Hout p Hi). lia.
      * now apply (IH i).
Qed.

Lemma lookup_count_absent (l : Z) (uc : list (Z * nat)) :
  ~ In l (map fst uc) -> lookup_count l uc = 0%nat.
Proof.
  induction uc as [|q uc IH]; simpl; intros H; [reflexivity|].
  destruct (Z.eqb_spec (fst q) l) as [E | E]; [exfalso; auto|].
  apply IH. intros H'. apply H. now right.
Qed.

(** *** [np.argmax] *)

Lemma argmax_from_spec (l : list nat) (bi b i : nat) :
  (argmax_from bi b i l = bi /\ Forall (fun c => c <= b)%nat l) \/
  (exists j, argmax_from bi b i l = (i + j)%nat /\ (j < length l)%nat /\
             (b < nth j l 0)%nat /\
             (forall j', (j' < length l)%nat -> (nth j' l 0 <= nth j l 0)%nat) /\
             (forall j', (j' < j)%nat -> (nth j' l 0 < nth j l 0)%nat)).
Proof.
  revert bi b i; induction l as [|c l IH]; intros bi b i; simpl.
  - left. split; [reflexivity | constructor].
  - destruct (Nat.ltb_spec b c) as [L | G].
    + destruct (IH i c (S i)) as [[E Hall] | [j (E & Hj & Hb & Hmax & Hfirst)]].
      * right. exists 0%nat. rewrite E, Nat.add_0_r. simpl.
        split; [reflexivity|]. split; [lia|]. split; [exact L|]. split; [|intros; lia].
        intros [|j'] Hj'; [lia|]. rewrite Forall_forall in Hall.
        apply Hall, nth_In. lia.
      * right. exists (S j). rewrite E. simpl.
        split; [lia|]. split; [lia|]. split; [lia|]. split.
        -- intros [|j'] Hj'; [lia | apply Hmax; lia].
        -- intros [|j'] Hj'; [lia | apply Hfirst; lia].
    + destruct (IH bi b (S i)) as [[E Hall] | [j (E & Hj & Hb & Hmax & Hfirst)]].
      * left. split; [exact E | constructor; assumption].
      * right. exists (S j). rewrite E. simpl.
        split; [lia|]. split; [lia|]. split; [lia|]. split.
        -- intros [|j'] Hj'; [lia | apply Hmax; lia].
        -- intros [|j'] Hj'; [lia | apply Hfirst; lia].
Qed.

Lemma np_argmax_spec (l : list nat) :
  l <> [] ->
  exists i, np_argmax l = Some i /\ (i < length l)%nat /\
            (forall j, (j < length l)%nat -> (nth j l 0 <= nth i l 0)%nat) /\
            (forall j, (j < i)%nat -> (nth j l 0 < nth i l 0)%nat).
Proof.
  destruct l as [|c l]; [congruence|]. intros _. simpl.
  destruct (argmax_from_spec l 0 c 1) as [[E Hall] | [j (E & Hj & Hb & Hmax & Hfirst)]].
  - exists 0%nat. rewrite E. simpl. split; [reflexivity|]. split; [lia|].
    split; [|intros; lia].
    intros [|j] Hj; [lia|]. rewrite Forall_forall in Hall. apply Hall, nth_In. lia.
  - exists (S j). rewrite E. simpl. split; [reflexivity|]. split; [lia|]. split.
    + intros [|j'] Hj'; [lia | apply Hmax; lia].
    + intros [|j'] Hj'; [lia | apply Hfirst; lia].
Qed.

Lemma sorted_nth_lt {A : Type} (R : A -> A -> Prop) (l : list A) (i j : nat) (p q : A) :
  StronglySorted R l -> (i < j)%nat ->
  nth_error l i = Some p -> nth_error l j = Some q -> R p q.
Proof.
  intros Hs. revert i j. induction Hs as [|x l Hs IH Hx]; intros i j Hij Hi Hj.
  - destruct i; discriminate.
  - destruct j as [|j]; [lia|]. destruct i as [|i]; simpl in *.
    + injection Hi as <-. rewrite Forall_forall in Hx.
      apply Hx. now apply nth_error_In in Hj.
    + apply (IH i j); [lia | assumption | assumption].
Qed.

Lemma count_label_pos_In (l : Z) (labels : list Z) :
  (0 < count_label l labels)%nat <-> In l labels.
Proof.
  unfold count_label. split.
  - intros H. destruct (filter (Z.eqb l) labels) as [|x r] eqn:E; [simpl in H; lia|].
    assert (Hx : In x (filter (Z.eqb l) labels)) by (rewrite E; now left).
    apply filter_In in Hx. destruct Hx as [Hx Ex].
    apply Z.eqb_eq in Ex. now subst x.
  - intros H.
    assert (Hx : In l (filter (Z.eqb l) labels))
      by (apply filter_In; split; [exact H | apply Z.eqb_refl]).
    destruct (filter (Z.eqb l) labels); [destruct Hx | simpl; lia].
Qed.

Lemma nth_map_snd (uc : list (Z * nat)) (i : nat) (p : Z * nat) :
  nth_error uc i = Some p -> nth i (map snd uc) 0%nat = snd p.
Proof.
  revert i; induction uc as [|q uc IH]; intros [|i] H; simpl in *;
    try discriminate; [now injection H as -> | now apply IH].
Qed.

Lemma largest_cluster_label_spec (labels : list Z) :
  labels <> [] ->
  exists l,
    largest_cluster_label labels = Ok l /\ In l labels /\
    (forall l', (count_label l' labels <= count_label l labels)%nat) /\
    (forall l', count_label l' labels = count_label l labels -> (l <= l')%Z).
Proof.
  intros Hne. unfold largest_cluster_label.
  set (uc := np_unique_counts labels).
  pose proof (unique_counts_sorted labels) as Hs. fold uc in Hs.
  assert (Hcount : forall l', lookup_count l' uc = count_label l' labels)
    by (intros; apply lookup_count_unique_counts).
  assert (Hfind : forall l', (0 < count_label l' labels)%nat ->
            exists j p, nth_error uc j = Some p /\ fst p = l').
  { intros l' Hpos. destruct (in_dec Z.eq_dec l' (map fst uc)) as [Hin | Hout].
    - apply in_map_iff in Hin. destruct Hin as [p [E Hp]].
      apply In_nth_error in Hp. destruct Hp as [j Hj]. now exists j, p.
    - apply lookup_count_absent in Hout. rewrite Hcount in Hout. lia. }
  assert (Hucne : map snd uc <> []).
  { destruct labels as [|x labels]; [congruence|].
    destruct (Hfind x) as [j [p [Hj _]]].
    - apply count_label_pos_In. now left.
    - destruct uc; [destruct j; discriminate | discriminate]. }
  destruct (np_argmax_spec (map snd uc) Hucne) as [i (Ei & Hi & Hmax & Hfirst)].
  rewrite Ei. simpl. rewrite length_map in Hi, Hmax.
  destruct (nth_error uc i) as [p|] eqn:Ep; [|apply nth_error_None in Ep; lia].
  rewrite nth_error_map, Ep. simpl. exists (fst p).
  assert (Hp : count_label (fst p) labels = snd p)
    by (rewrite <- Hcount; now apply (sorted_entry_count uc i)).
  assert (Hi' : nth i (map snd uc) 0%nat = snd p) by now apply nth_map_snd.
  assert (Hle : forall l', (count_label l' labels <= snd p)%nat).
  { intros l'. destruct (Nat.eq_dec (count_label l' labels) 0) as [-> | Hpos]; [lia|].
    destruct (Hfind l') as [j [q [Hj Eq]]]; [lia|].
    assert (Hq : count_label l' labels = snd q)
      by (rewrite <- Hcount, <- Eq; now apply (sorted_entry_count uc j)).
    rewrite Hq, <- (nth_map_snd uc j q Hj), <- Hi'. apply Hmax.
    apply nth_error_Some. congruence. }
  assert (Hhead : (0 < snd p)%nat).
  { destruct labels as [|x labels]; [congruence|].
    specialize (Hle x).
    assert (0 < count_label x (x :: labels))%nat by (apply count_label_pos_In; now left).
    lia. }
  split; [reflexivity|]. split; [apply count_label_pos_In; lia|].
  split; [intros l'; rewrite Hp; apply Hle|].
  intros l' El'. rewrite Hp in El'.
  destruct (Hfind l') as [j [q [Hj Eq]]]; [lia|].
  assert (Hq : count_label l' labels = snd q)
    by (rewrite <- Hcount, <- Eq; now apply (sorted_entry_count uc j)).
  destruct (Nat.lt_trichotomy j i) as [L | [E | G]].
  - specialize (Hfirst j L). rewrite Hi', (nth_map_snd uc j q Hj) in Hfirst. lia.
  - subst j. rewrite Ep in Hj. injection Hj as ->. lia.
  - pose proof (sorted_nth_lt _ uc i j p q Hs G Ep Hj) as Hlt. simpl in Hlt. lia.
Qed.

(** The label picked at lines 99-100 is a label that occurs most often, the
    outlier label -1 counted like any other, and the smallest such label;
    with no labels at all [np.argmax] raises [ValueError]. *)
Theorem most_frequent_label_is_chosen :
  largest_cluster_label [] = Raise ValueError /\
  forall labels, labels <> [] ->
    exists l,
      largest_cluster_label labels = Ok l /\ In l labels /\
      (forall l', (count_label l' labels <= count_label l labels)%nat) /\
      (forall l', count_label l' labels = count_label l labels -> (l <= l')%Z).
Proof.
  split; [reflexivity | exact largest_cluster_label_spec].
Qed.

Lemma most_frequent_label_is_chosen_witness :
  [0; -1; 0; -1; 1]%Z <> [] /\
  exists l,
    largest_cluster_label [0; -1; 0; -1; 1]%Z = Ok l /\ In l [0; -1; 0; -1; 1]%Z /\
    (forall l', (count_label l' [0; -1; 0; -1; 1]%Z
                 <= count_label l [0; -1; 0; -1; 1]%Z)%nat) /\
    (forall l', count_label l' [0; -1; 0; -1; 1]%Z = count_label l [0; -1; 0; -1; 1]%Z
                -> (l <= l')%Z).
Proof.
  assert (H : [0; -1; 0; -1; 1]%Z <> []) by discriminate.
  split; [exact H|].
  exact (proj2 most_frequent_label_is_chosen _ H).
Defined.

(** *** The labels of DBSCAN *)

Lemma length_set_nth {A : Type} (i : nat) (v : A) (l : list A) :
  length (set_nth i v l) = length l.
Proof.
  revert i; induction l as [|x l IH]; intros [|i]; simpl; auto.
Qed.

Lemma Forall_set_nth {A : Type} (P : A -> Prop) (i : nat) (v : A) (l : list A) :
  P v -> Forall P l -> Forall P (set_nth i v l).
Proof.
  intros Hv. revert i; induction l as [|x l IH]; intros [|i] H; simpl;
    inversion H; subst; constructor; auto.
Qed.

Lemma expand_keeps (P : Z -> Prop) (fuel : nat) (core : list bool)
    (nbrs : list (list nat)) (label_num : Z) (i : nat) (stack : list nat)
    (labels : list Z) :
  P label_num -> Forall P labels ->
  length (expand fuel core nbrs label_num i stack labels) = length labels /\
  Forall P (expand fuel core nbrs label_num i stack labels).
Proof.
  intros Hn. revert i stack labels.
  induction fuel as [|fuel IH]; intros i stack labels Hl; simpl; [now split|].
  destruct (unlabelled labels i).
  - destruct (nth i core false).
    + destruct (fold_left _ _ stack) as [|v rest].
      * split; [apply length_set_nth | now apply Forall_set_nth].
      * destruct (IH v rest (set_nth i label_num labels)) as [E F];
          [now apply Forall_set_nth|].
        rewrite E, length_set_nth. now split.
    + destruct stack as [|v rest].
      * split; [apply length_set_nth | now apply Forall_set_nth].
      * destruct (IH v rest (set_nth i label_num labels)) as [E F];
          [now apply Forall_set_nth|].
        rewrite E, length_set_nth. now split.
  - destruct stack as [|v rest]; [now split | now apply IH].
Qed.

Lemma dbscan_outer_keeps (fuel : nat) (core : list bool) (nbrs : list (list nat))
    (todo : list nat) (label_num : Z) (labels : list Z) :
  (0 <= label_num)%Z -> Forall (fun z => (-1 <= z)%Z) labels ->
  length (dbscan_outer fuel core nbrs todo label_num labels) = length labels /\
  Forall (fun z => (-1 <= z)%Z) (dbscan_outer fuel core nbrs todo label_num labels).
Proof.
  revert label_num labels. induction todo as [|i todo IH]; intros label_num labels Hn Hl; simpl.
  - now split.
  - destruct (negb (unlabelled labels i) || negb (nth i core false)).
    + now apply IH.
    + destruct (expand_keeps (fun z => (-1 <= z)%Z) fuel core nbrs label_num i [] labels)
        as [E F]; [lia | assumption|].
      destruct (IH (label_num + 1)%Z (expand fuel core nbrs label_num i [] labels))
        as [E' F']; [lia | assumption|].
      rewrite E', E. now split.
Qed.

(** One label for each point, each a cluster number or -1. *)
Lemma dbscan_labels_shape (eps : Q) (min_samples : nat) (data : list Q) :
  length (dbscan_labels eps min_samples data) = length data /\
  Forall (fun z => (-1 <= z)%Z) (dbscan_labels eps min_samples data).
Proof.
  unfold dbscan_labels.
  destruct (dbscan_outer_keeps (length data * length data + length data + 1)
              (is_core min_samples (neighborhoods eps data)) (neighborhoods eps data)
              (seq 0 (length data)) 0 (repeat (-1)%Z (length data))) as [E F].
  - lia.
  - apply Forall_forall. intros z Hz. apply repeat_spec in Hz. lia.
  - rewrite E, repeat_length. now split.
Qed.

(** *** Minimum and selection *)

Lemma fold_min_Q (l : list Q) (x : Q) :
  In (fold_left (fun m y => if Qlt_le_dec y m then y else m) l x) (x :: l) /\
  forall y, In y (x :: l) ->
            fold_left (fun m y => if Qlt_le_dec y m then y else m) l x <= y.
Proof.
  revert x; induction l as [|z l IH]; intros x; simpl.
  - split; [now left|]. intros y [<- | []]. apply Qle_refl.
  - destruct (Qlt_le_dec z x) as [L | G].
    + destruct (IH z) as [Hin Hmin]. split.
      * simpl in Hin. destruct Hin as [Hin | Hin]; auto.
      * intros y [<- | [<- | Hy]].
        -- eapply Qle_trans; [apply Hmin; now left | now apply Qlt_le_weak].
        -- apply Hmin. now left.
        -- apply Hmin. now right.
    + destruct (IH x) as [Hin Hmin]. split.
      * simpl in Hin. destruct Hin as [Hin | Hin]; auto.
      * intros y [<- | [<- | Hy]].
        -- apply Hmin. now left.
        -- eapply Qle_trans; [apply Hmin; now left | exact G].
        -- apply Hmin. now right.
Qed.

Lemma list_min_spec (l : list Q) :
  match list_min l with
  | None => l = []
  | Some m => In m l /\ forall y, In y l -> m <= y
  end.
Proof.
  destruct l as [|x l]; simpl; [reflexivity | apply fold_min_Q].
Qed.

Lemma In_select {A : Type} (mask : list bool) (data : list A) (m : A) :
  In m (select mask data)
  <-> exists i, nth_error mask i = Some true /\ nth_error data i = Some m.
Proof.
  revert data; induction mask as [|b mask IH]; intros data.
  - simpl. split; [intros [] | intros [i [H _]]; destruct i; discriminate].
  - destruct data as [|x data].
    + simpl. split; [intros [] | intros [i [_ H]]; destruct i; discriminate].
    + simpl. destruct b.
      * simpl. rewrite IH. split.
        -- intros [<- | [i Hi]]; [now exists 0%nat | now exists (S i)].
        -- intros [[|i] [Hm Hd]]; simpl in *; [left; congruence | right; now exists i].
      * rewrite IH. split.
        -- intros [i Hi]. now exists (S i).
        -- intros [[|i] [Hm Hd]]; simpl in *; [discriminate | now exists i].
Qed.

Lemma nth_error_combine {A B : Type} (l : list A) (l' : list B) (i : nat) :
  nth_error (combine l l') i
  = match nth_error l i, nth_error l' i with
    | Some a, Some b => Some (a, b)
    | _, _ => None
    end.
Proof.
  revert l' i; induction l as [|a l IH]; intros [|b l'] [|i]; simpl; try reflexivity.
  - now destruct (nth_error l i).
  - apply IH.
Qed.

(** The amplitudes selected at line 108 are those labelled -1 that exceed the
    threshold. *)
Lemma In_outliers_above (threshold : Q) (labels : list Z) (data : list Q) (m : Q) :
  In m (outliers_above threshold labels data)
  <-> exists i, nth_error labels i = Some (-1)%Z /\ nth_error data i = Some m /\
                threshold < m.
Proof.
  unfold outliers_above. rewrite In_select. split.
  - intros [i [Hm Hd]]. exists i.
    rewrite nth_error_map, nth_error_combine, Hd in Hm.
    destruct (nth_error labels i) as [lab|]; [|discriminate]. simpl in Hm.
    injection Hm as Hm. apply andb_true_iff in Hm. destruct Hm as [Hl Ht].
    apply Z.eqb_eq in Hl. apply Qlt_le_dec_true in Ht. subst lab. auto.
  - intros [i (Hl & Hd & Ht)]. exists i. split; [|exact Hd].
    rewrite nth_error_map, nth_error_combine, Hl, Hd. simpl.
    apply Qlt_le_dec_true in Ht. now rewrite Ht.
Qed.

(** *** What the estimator returns *)

Lemma labels_nonempty (eps : Q) (min_samples : nat) (data : list Q) :
  data <> [] -> dbscan_labels eps min_samples data <> [].
Proof.
  intros Hne E. pose proof (proj1 (dbscan_labels_shape eps min_samples data)) as L.
  rewrite E in L. destruct data; [congruence | discriminate].
Qed.

Lemma dbscan_fit_accepts (eps : Q) (min_samples : nat) (data : list Q) :
  0 < eps -> dbscan_fit eps min_samples data = Ok (dbscan_labels eps min_samples data).
Proof.
  intros H. unfold dbscan_fit. destruct (Qlt_le_dec 0 eps) as [_|Hle]; [reflexivity|].
  exfalso. exact (Qle_not_lt _ _ Hle H).
Qed.

Lemma dbscan_fit_refuses (eps : Q) (min_samples : nat) (data : list Q) :
  eps <= 0 -> dbscan_fit eps min_samples data = Raise ValueError.
Proof.
  intros H. unfold dbscan_fit. destruct (Qlt_le_dec 0 eps) as [Hlt|_]; [|reflexivity].
  exfalso. exact (Qle_not_lt _ _ H Hlt).
Qed.

Lemma estimator_unfolded (np_sqrt : nat -> Q) (rayleigh_fit_ppf : list Q -> Q)
    (amplitudes : list Q) (min_samples : nat) (eps : option Q) :
  amplitudes <> [] ->
  find_clusters_ell_amplitudes np_sqrt rayleigh_fit_ppf amplitudes min_samples eps
  = (let e := used_eps np_sqrt amplitudes eps in
     labels <- dbscan_fit e min_samples amplitudes ;;
     noise <- largest_cluster_data labels amplitudes ;;
     m <- or_value_error
            (list_min (outliers_above (rayleigh_fit_ppf noise) labels amplitudes)) ;;
     Ok (m - e)).
Proof.
  intros Hne. unfold find_clusters_ell_amplitudes, used_eps.
  destruct amplitudes as [|x amplitudes]; [congruence|].
  destruct eps; reflexivity.
Qed.

(** One amplitude and no [eps] supplied: line 90 gives the radius 0, which
    DBSCAN refuses. *)
Lemma single_amplitude_refused (np_sqrt : nat -> Q) (rayleigh_fit_ppf : list Q -> Q)
    (a : Q) (min_samples : nat) :
  find_clusters_ell_amplitudes np_sqrt rayleigh_fit_ppf [a] min_samples None
  = Raise ValueError.
Proof.
  rewrite (estimator_unfolded np_sqrt rayleigh_fit_ppf [a] min_samples None)
    by discriminate.
  cbv zeta. rewrite dbscan_fit_refuses; [reflexivity|].
  unfold used_eps; simpl.
  assert (E : (a - a) / np_sqrt 1%nat == 0).
  { unfold Qdiv. setoid_replace (a - a) with 0 by ring. apply Qmult_0_l. }
  rewrite E. apply Qle_refl.
Qed.

(** Lines 83-110.  On an empty population the estimator raises [ValueError]
    (the [np.max] of an empty array); on a single amplitude with no [eps]
    supplied it raises [ValueError] too, the radius of line 90 being 0.
    Otherwise, with [e] the radius handed to DBSCAN: if [e] is not positive
    DBSCAN refuses it with [ValueError]; if it is, the population fitted is
    that of the most frequent label, and with [strong] the amplitudes
    labelled -1 above the tail bound of the fit: if there is none the
    estimator raises [ValueError] (the [min] of an empty selection), else it
    returns the smallest of them minus [e]. *)
Theorem threshold_below_smallest_strong_outlier
    (np_sqrt : nat -> Q) (rayleigh_fit_ppf : list Q -> Q)
    (min_samples : nat) (eps : option Q) :
  find_clusters_ell_amplitudes np_sqrt rayleigh_fit_ppf [] min_samples eps
  = Raise ValueError /\
  (forall a,
      find_clusters_ell_amplitudes np_sqrt rayleigh_fit_ppf [a] min_samples None
      = Raise ValueError) /\
  forall amplitudes, amplitudes <> [] ->
    let e := used_eps np_sqrt amplitudes eps in
    (e <= 0 ->
     find_clusters_ell_amplitudes np_sqrt rayleigh_fit_ppf amplitudes min_samples eps
     = Raise ValueError) /\
    (0 < e ->
     let labels := dbscan_labels e min_samples amplitudes in
     exists noise,
       noise_population min_samples e amplitudes = Ok noise /\
       let strong := outliers_above (rayleigh_fit_ppf noise) labels amplitudes in
       (forall m, In m strong <->
          exists i, nth_error labels i = Some (-1)%Z /\
                    nth_error amplitudes i = Some m /\ rayleigh_fit_ppf noise < m) /\
       (strong = [] ->
        find_clusters_ell_amplitudes np_sqrt rayleigh_fit_ppf amplitudes min_samples eps
        = Raise ValueError) /\
       (strong <> [] ->
        exists m,
          find_clusters_ell_amplitudes np_sqrt rayleigh_fit_ppf amplitudes min_samples eps
          = Ok (m - e) /\
          In m strong /\ forall x, In x strong -> m <= x)).
Proof.
  split; [reflexivity|]. split.
  { intros a. apply single_amplitude_refused. }
  intros amplitudes Hne e.
  rewrite (estimator_unfolded np_sqrt rayleigh_fit_ppf amplitudes min_samples eps Hne).
  cbv zeta. fold e. split.
  { intros He. now rewrite dbscan_fit_refuses. }
  intros He. set (labels := dbscan_labels e min_samples amplitudes).
  rewrite (dbscan_fit_accepts e min_samples amplitudes He). cbn [bind]. fold labels.
  destruct (largest_cluster_label_spec labels) as [l (El & _)];
    [now apply labels_nonempty|].
  unfold noise_population. fold labels.
  unfold largest_cluster_data. rewrite El. simpl.
  eexists. split; [reflexivity|].
  split; [intros m; apply In_outliers_above|].
  pose proof (list_min_spec
                (outliers_above (rayleigh_fit_ppf (select (label_mask l labels) amplitudes))
                                labels amplitudes)) as Hmin.
  destruct (list_min _) as [m|]; simpl.
  - split; [intros E; rewrite E in Hmin; destruct Hmin as [[] _]|].
    intros _. exists m. split; [reflexivity | exact Hmin].
  - split; [reflexivity | intros H; congruence].
Qed.

Lemma threshold_below_smallest_strong_outlier_witness :
  small_population <> [] /\
  0 < used_eps (fun _ => 2) small_population (Some 1) /\
  exists m,
    find_clusters_ell_amplitudes (fun _ => 2) (fun _ => 5) small_population 10 (Some 1)
    = Ok (m - used_eps (fun _ => 2) small_population (Some 1)).
Proof.
  assert (H : small_population <> []) by discriminate.
  assert (He : 0 < used_eps (fun _ => 2) small_population (Some 1)) by reflexivity.
  split; [exact H|]. split; [exact He|].
  destruct (proj2 (proj2 (proj2 (threshold_below_smallest_strong_outlier
                                   (fun _ => 2) (fun _ => 5) 10 (Some 1)))
                     small_population H) He)
    as [noise (En & _ & _ & Hsome)].
  injection En as <-.
  destruct Hsome as [m (E & _)]; [discriminate|].
  exists m. exact E.
Defined.

(** The select of a mask that is true everywhere, and the labels of a
    population without core sample. *)
Lemma select_all_true {A : Type} (data : list A) :
  select (repeat true (length data)) data = data.
Proof. induction data as [|x data IH]; simpl; [reflexivity | now rewrite IH]. Qed.

Lemma label_mask_repeat (n : nat) :
  label_mask (-1) (repeat (-1)%Z n) = repeat true n.
Proof. induction n as [|n IH]; simpl; [reflexivity | now rewrite <- IH]. Qed.

Lemma largest_label_all_outliers (n : nat) :
  (0 < n)%nat -> largest_cluster_label (repeat (-1)%Z n) = Ok (-1)%Z.
Proof.
  intros Hn.
  destruct (largest_cluster_label_spec (repeat (-1)%Z n)) as [l (El & Hin & _)].
  - destruct n; [lia | discriminate].
  - apply repeat_spec in Hin. now subst l.
Qed.

Lemma outliers_above_all (threshold : Q) (data : list Q) :
  outliers_above threshold (repeat (-1)%Z (length data)) data
  = filter (fun x => if Qlt_le_dec threshold x then true else false) data.
Proof.
  unfold outliers_above. induction data as [|x data IH]; simpl; [reflexivity|].
  destruct (Qlt_le_dec threshold x); simpl; now rewrite IH.
Qed.

(** Lines 92-110 with fewer amplitudes than [min_samples] (10 when called
    from the ellipse search).  With [e] the radius handed to DBSCAN: if [e]
    is not positive DBSCAN refuses it with [ValueError]; if it is, DBSCAN
    finds no core sample, every amplitude is labelled -1, the Rayleigh fit is
    made on the whole population, and the result is the smallest amplitude
    above the tail bound of that fit minus [e], or [ValueError] when no
    amplitude is above it. *)
Theorem few_amplitudes_are_all_outliers
    (np_sqrt : nat -> Q) (rayleigh_fit_ppf : list Q -> Q)
    (amplitudes : list Q) (min_samples : nat) (eps : option Q) :
  amplitudes <> [] -> (length amplitudes < min_samples)%nat ->
  let e := used_eps np_sqrt amplitudes eps in
  (e <= 0 ->
   find_clusters_ell_amplitudes np_sqrt rayleigh_fit_ppf amplitudes min_samples eps
   = Raise ValueError) /\
  (0 < e ->
   dbscan_fit e min_samples amplitudes = Ok (repeat (-1)%Z (length amplitudes)) /\
   noise_population min_samples e amplitudes = Ok amplitudes /\
   find_clusters_ell_amplitudes np_sqrt rayleigh_fit_ppf amplitudes min_samples eps
   = (m <- or_value_error
             (list_min (filter (fun x => if Qlt_le_dec (rayleigh_fit_ppf amplitudes) x
                                         then true else false) amplitudes)) ;;
      Ok (m - e))).
Proof.
  intros Hne Hlen e.
  rewrite (estimator_unfolded np_sqrt rayleigh_fit_ppf amplitudes min_samples eps Hne).
  cbv zeta. fold e. split.
  { intros He. now rewrite dbscan_fit_refuses. }
  intros He.
  assert (El : dbscan_labels e min_samples amplitudes = repeat (-1)%Z (length amplitudes))
    by now apply EstimatorFacts.dbscan_labels_few.
  assert (En : largest_cluster_data (repeat (-1)%Z (length amplitudes)) amplitudes
               = Ok amplitudes).
  { unfold largest_cluster_data. rewrite largest_label_all_outliers.
    - simpl. now rewrite label_mask_repeat, select_all_true.
    - destruct amplitudes; [congruence | simpl; lia]. }
  rewrite (dbscan_fit_accepts e min_samples amplitudes He), El.
  split; [reflexivity|]. split.
  - unfold noise_population. now rewrite El.
  - simpl. rewrite En. simpl. now rewrite outliers_above_all.
Qed.

Lemma few_amplitudes_are_all_outliers_witness :
  small_population <> [] /\ (length small_population < 10)%nat /\
  0 < used_eps (fun _ => 2) small_population None /\
  find_clusters_ell_amplitudes (fun _ => 2) (fun _ => 5) small_population 10 None
  = Ok (7 - (7 - 1) / 2).
Proof.
  assert (H1 : small_population <> []) by discriminate.
  assert (H2 : (length small_population < 10)%nat) by (simpl; lia).
  assert (H3 : 0 < used_eps (fun _ => 2) small_population None) by reflexivity.
  split; [exact H1|]. split; [exact H2|]. split; [exact H3|].
  rewrite (proj2 (proj2 (proj2 (few_amplitudes_are_all_outliers (fun _ => 2) (fun _ => 5)
                                  small_population 10 None H1 H2) H3))).
  reflexivity.
Defined.

(** Lines 99-102 on the labels of DBSCAN: whenever no cluster has more points
    than there are outliers, the label picked is -1 and the Rayleigh fit is
    made on the outliers. *)
Theorem outliers_fitted_when_most_numerous
    (min_samples : nat) (eps : Q) (data : list Q) :
  let labels := dbscan_labels eps min_samples data in
  (0 < count_label (-1) labels)%nat ->
  (forall l, (count_label l labels <= count_label (-1) labels)%nat) ->
  largest_cluster_label labels = Ok (-1)%Z /\
  noise_population min_samples eps data = Ok (outliers labels data).
Proof.
  intros labels Hpos Hmost.
  assert (Hne : labels <> []).
  { apply count_label_pos_In in Hpos. intros E. rewrite E in Hpos. destruct Hpos. }
  destruct (largest_cluster_label_spec labels Hne) as [l (El & Hin & Hmax & Htie)].
  assert (E : l = (-1)%Z).
  { pose proof (proj2 (dbscan_labels_shape eps min_samples data)) as Hge.
    fold labels in Hge. rewrite Forall_forall in Hge. specialize (Hge l Hin).
    assert (Hl : (l <= -1)%Z).
    { apply Htie. specialize (Hmax (-1)%Z). specialize (Hmost l). lia. }
    lia. }
  subst l. split; [exact El|].
  unfold noise_population, largest_cluster_data. fold labels. rewrite El. reflexivity.
Qed.

Lemma outliers_fitted_when_most_numerous_witness :
  (0 < count_label (-1) (dbscan_labels 1 2 paired_population))%nat /\
  largest_cluster_label (dbscan_labels 1 2 paired_population) = Ok (-1)%Z.
Proof.
  assert (E : dbscan_labels 1 2 paired_population = [0; 0; -1; -1]%Z)
    by (vm_compute; reflexivity).
  assert (H1 : (0 < count_label (-1) (dbscan_labels 1 2 paired_population))%nat)
    by (rewrite E; unfold count_label; simpl; lia).
  split; [exact H1|].
  apply (outliers_fitted_when_most_numerous 2 1 paired_population H1).
  intros l. rewrite E. unfold count_label. simpl.
  destruct (Z.eqb_spec l 0) as [E0 | E0];
    destruct (Z.eqb_spec l (-1)) as [E1 | E1]; simpl; lia.
Defined.

End EstimatorMoreFacts.

(** ** Peak of a box and seed of the fit *)

Module PatchFacts.
Import Patch MoreExamples.

Lemma argmax_from_Q (l : list Q) (bi : nat) (b : Q) (i : nat) :
  (argmax_from bi b i l = bi /\ Forall (fun c => c <= b) l) \/
  (exists j, argmax_from bi b i l = (i + j)%nat /\ (j < length l)%nat /\
             b < nth j l 0 /\
             (forall j', (j' < length l)%nat -> nth j' l 0 <= nth j l 0)).
Proof.
  revert bi b i; induction l as [|c l IH]; intros bi b i; simpl.
  - left. split; [reflexivity | constructor].
  - destruct (Qlt_le_dec b c) as [L | G].
    + destruct (IH i c (S i)) as [[E Hall] | [j (E & Hj & Hb & Hmax)]].
      * right. exists 0%nat. rewrite E, Nat.add_0_r. simpl.
        split; [reflexivity|]. split; [lia|]. split; [exact L|].
        intros [|j'] Hj'; [apply Qle_refl|]. rewrite Forall_forall in Hall.
        apply Hall, nth_In. lia.
      * right. exists (S j). rewrite E. simpl.
        split; [lia|]. split; [lia|]. split; [eapply Qlt_trans; eassumption|].
        intros [|j'] Hj'; [now apply Qlt_le_weak | apply Hmax; lia].
    + destruct (IH bi b (S i)) as [[E Hall] | [j (E & Hj & Hb & Hmax)]].
      * left. split; [exact E | constructor; assumption].
      * right. exists (S j). rewrite E. simpl.
        split; [lia|]. split; [lia|]. split; [exact Hb|].
        intros [|j'] Hj'; [|apply Hmax; lia].
        eapply Qle_trans; [exact G | now apply Qlt_le_weak].
Qed.

(** [argmax] gives an index of the array at which it is largest. *)
Lemma np_argmax_Q_spec (l : list Q) :
  l <> [] ->
  exists k, np_argmax l = Some k /\ (k < length l)%nat /\
            forall j, (j < length l)%nat -> nth j l 0 <= nth k l 0.
Proof.
  destruct l as [|c l]; [congruence|]. intros _. simpl.
  destruct (argmax_from_Q l 0 c 1) as [[E Hall] | [j (E & Hj & Hb & Hmax)]].
  - exists 0%nat. rewrite E. split; [reflexivity|]. split; [lia|].
    intros [|j] Hj; [apply Qle_refl|]. rewrite Forall_forall in Hall.
    apply Hall, nth_In. lia.
  - exists (S j). rewrite E. split; [reflexivity|]. split; [lia|].
    intros [|j'] Hj'; [now apply Qlt_le_weak | apply Hmax; lia].
Qed.

(** *** Row-major order *)

Lemma length_concat_rect (a : image) (w : nat) :
  rectangular a w -> length (concat a) = (length a * w)%nat.
Proof.
  induction 1 as [|row a Hrow Ha IH]; simpl; [reflexivity|].
  rewrite length_app, IH, Hrow. reflexivity.
Qed.

Lemma nth_concat_rect (a : image) (w r c : nat) :
  rectangular a w -> (c < w)%nat ->
  nth (r * w + c) (concat a) 0 = nth c (nth r a []) 0.
Proof.
  intros Ha Hc. revert r. induction Ha as [|row a Hrow Ha IH]; intros r.
  - simpl. destruct r; destruct (_ + c)%nat; destruct c; reflexivity.
  - destruct r as [|r]; simpl.
    + apply app_nth1. lia.
    + rewrite app_nth2 by lia. rewrite Hrow.
      replace (w + r * w + c - w)%nat with (r * w + c)%nat by lia. apply IH.
Qed.

Lemma unravel_ravel (w r c : nat) :
  (c < w)%nat -> unravel_index (r * w + c) (0%nat, w) = (r, c).
Proof.
  intros Hc. unfold unravel_index. simpl. f_equal.
  - rewrite Nat.div_add_l by lia. rewrite Nat.div_small by lia. lia.
  - rewrite Nat.add_comm, Nat.Div0.mod_add. now apply Nat.mod_small.
Qed.

Lemma ravel_unravel (w k : nat) :
  (0 < w)%nat -> k = ((k / w) * w + k mod w)%nat /\ (k mod w < w)%nat.
Proof.
  intros Hw. split; [|apply Nat.mod_upper_bound; lia].
  rewrite (Nat.div_mod_eq k w) at 1. lia.
Qed.

(** *** Slices *)

Lemma length_slice {A : Type} (start stop : nat) (l : list A) :
  (stop <= length l)%nat -> length (slice start stop l) = (stop - start)%nat.
Proof.
  intros H. unfold slice. rewrite length_firstn, length_skipn. lia.
Qed.

Lemma nth_slice {A : Type} (start stop i : nat) (l : list A) (d : A) :
  (i < stop - start)%nat -> nth i (slice start stop l) d = nth (start + i) l d.
Proof.
  intros H. unfold slice. rewrite nth_firstn.
  destruct (Nat.ltb_spec i (stop - start)); [apply nth_skipn | lia].
Qed.

Lemma In_slice {A : Type} (start stop : nat) (l : list A) (x : A) :
  In x (slice start stop l) -> In x l.
Proof.
  unfold slice. intros H.
  rewrite <- (firstn_skipn start l). apply in_or_app. right.
  rewrite <- (firstn_skipn (stop - start) (skipn start l)). apply in_or_app. now left.
Qed.

Lemma subimage_rectangular (img : image) (w b0 b1 b2 b3 : nat) :
  rectangular img w -> (b3 <= w)%nat ->
  rectangular (map (slice b1 b3) (slice b0 b2 img)) (b3 - b1).
Proof.
  intros Hr Hb. unfold rectangular in *. rewrite Forall_forall in *.
  intros row Hrow. apply in_map_iff in Hrow. destruct Hrow as [row' [<- Hin]].
  apply length_slice. apply In_slice in Hin. rewrite (Hr row' Hin). exact Hb.
Qed.

Lemma subimage_pixel (img : image) (b0 b1 b2 b3 r c : nat) :
  (r < b2 - b0)%nat -> (c < b3 - b1)%nat -> (b2 <= length img)%nat ->
  nth c (nth r (map (slice b1 b3) (slice b0 b2 img)) []) 0
  = SizeSearch.pixel img (b0 + r, b1 + c)%nat.
Proof.
  intros Hr Hc Hb. unfold SizeSearch.pixel. simpl.
  assert (E : nth r (map (slice b1 b3) (slice b0 b2 img)) []
              = slice b1 b3 (nth r (slice b0 b2 img) [])).
  { rewrite (nth_indep _ [] (slice b1 b3 [])).
    - apply map_nth.
    - rewrite length_map, length_slice; lia. }
  rewrite E, nth_slice by exact Hc. now rewrite nth_slice by exact Hr.
Qed.

(** [max_pos] on a box that lies in the image and is not empty: the
    position returned is in the box, the image is nowhere larger in the box,
    and the two widths are the height and the width of the box. *)
Theorem max_pos_is_brightest_in_box
    (object : RegionProperties) (img : image) (w b0 b1 b2 b3 : nat) :
  bbox object = (b0, b1, b2, b3) -> rectangular img w ->
  (b0 < b2 <= length img)%nat -> (b1 < b3 <= w)%nat ->
  exists r c,
    max_pos object img = Ok ((r, c), b2 - b0, b3 - b1)%nat /\
    (b0 <= r < b2)%nat /\ (b1 <= c < b3)%nat /\
    forall r' c', (b0 <= r' < b2)%nat -> (b1 <= c' < b3)%nat ->
                  SizeSearch.pixel img (r', c') <= SizeSearch.pixel img (r, c).
Proof.
  intros Eb Hrect Hrows Hcols. unfold max_pos. rewrite Eb.
  set (sub := map (slice b1 b3) (slice b0 b2 img)).
  assert (Hsub : rectangular sub (b3 - b1))
    by (apply (subimage_rectangular img w); [assumption | lia]).
  assert (Hlen : length sub = (b2 - b0)%nat)
    by (unfold sub; rewrite length_map, length_slice; lia).
  assert (Hflat : length (ravel sub) = ((b2 - b0) * (b3 - b1))%nat)
    by (unfold ravel; rewrite (length_concat_rect sub (b3 - b1) Hsub), Hlen; reflexivity).
  assert (Hshape : shape sub = ((b2 - b0)%nat, (b3 - b1)%nat)).
  { unfold shape. rewrite Hlen. f_equal.
    destruct sub as [|row sub']; [simpl in Hlen; lia|].
    simpl. now inversion Hsub. }
  destruct (np_argmax_Q_spec (ravel sub)) as [k (Ek & Hk & Hmax)].
  { intros E. rewrite E in Hflat. simpl in Hflat. nia. }
  rewrite Ek. unfold Estimator.or_value_error, bind.
  rewrite Hshape. unfold unravel_index. cbn [fst snd].
  destruct (ravel_unravel (b3 - b1) k) as [Ekk Hmod]; [lia|].
  assert (Hdiv : (k / (b3 - b1) < b2 - b0)%nat).
  { apply Nat.Div0.div_lt_upper_bound. rewrite Hflat in Hk. lia. }
  exists (b0 + k / (b3 - b1))%nat, (b1 + k mod (b3 - b1))%nat.
  split; [reflexivity|]. split; [lia|]. split; [lia|].
  intros r' c' Hr' Hc'.
  assert (Ein : SizeSearch.pixel img (r', c')
                = nth ((r' - b0) * (b3 - b1) + (c' - b1)) (ravel sub) 0).
  { unfold ravel. rewrite (nth_concat_rect sub (b3 - b1)) by (try assumption; lia).
    unfold sub. rewrite subimage_pixel by lia. f_equal. f_equal; lia. }
  assert (Eout : SizeSearch.pixel img (b0 + k / (b3 - b1), b1 + k mod (b3 - b1))%nat
                 = nth k (ravel sub) 0).
  { rewrite Ekk at 3. unfold ravel.
    rewrite (nth_concat_rect sub (b3 - b1)) by (try assumption; lia).
    unfold sub. now rewrite subimage_pixel by lia. }
  rewrite Ein, Eout. apply Hmax. rewrite Hflat. nia.
Qed.

Lemma max_pos_is_brightest_in_box_witness :
  bbox inner_box = (1, 1, 3, 3)%nat /\ rectangular ramp_image 4 /\
  (1 < 3 <= length ramp_image)%nat /\ (1 < 3 <= 4)%nat /\
  max_pos inner_box ramp_image = Ok ((1, 1), 2, 2)%nat.
Proof.
  assert (H1 : bbox inner_box = (1, 1, 3, 3)%nat) by reflexivity.
  assert (H2 : rectangular ramp_image 4) by (repeat constructor).
  assert (H3 : (1 < 3 <= length ramp_image)%nat) by (simpl; lia).
  assert (H4 : (1 < 3 <= 4)%nat) by lia.
  split; [exact H1|]. split; [exact H2|]. split; [exact H3|]. split; [exact H4|].
  destruct (max_pos_is_brightest_in_box inner_box ramp_image 4 1 1 3 3 H1 H2 H3 H4)
    as (r & c & E & _).
  reflexivity.
Defined.

(** *** The seed of the fit *)

Lemma fold_max_Q (l : list Q) (x : Q) :
  In (fold_left (fun m y => if Qlt_le_dec m y then y else m) l x) (x :: l) /\
  forall y, In y (x :: l) ->
            y <= fold_left (fun m y => if Qlt_le_dec m y then y else m) l x.
Proof.
  revert x; induction l as [|z l IH]; intros x; simpl.
  - split; [now left|]. intros y [<- | []]. apply Qle_refl.
  - destruct (Qlt_le_dec x z) as [L | G].
    + destruct (IH z) as [Hin Hmax]. split.
      * simpl in Hin. destruct Hin as [Hin | Hin]; auto.
      * intros y [<- | [<- | Hy]].
        -- eapply Qle_trans; [apply Qlt_le_weak; exact L | apply Hmax; now left].
        -- apply Hmax. now left.
        -- apply Hmax. now right.
    + destruct (IH x) as [Hin Hmax]. split.
      * simpl in Hin. destruct Hin as [Hin | Hin]; auto.
      * intros y [<- | [<- | Hy]].
        -- apply Hmax. now left.
        -- eapply Qle_trans; [exact G | apply Hmax; now left].
        -- apply Hmax. now right.
Qed.

Lemma list_max_spec (l : list Q) :
  match Estimator.list_max l with
  | None => l = []
  | Some m => In m l /\ forall y, In y l -> y <= m
  end.
Proof.
  destruct l as [|x l]; simpl; [reflexivity | apply fold_max_Q].
Qed.

Lemma count_above_le (half : Q) (v : list Q) : (count_above half v <= length v)%nat.
Proof. unfold count_above. apply filter_length_le. Qed.

Lemma count_above_pos (half x : Q) (v : list Q) :
  In x v -> half < x -> (1 <= count_above half v)%nat.
Proof.
  intros Hin Hx. unfold count_above.
  assert (H : In x (filter (fun x => if Qlt_le_dec 0 (x - half) then true else false) v)).
  { apply filter_In. split; [exact Hin|].
    apply Qlt_le_dec_true. Lqa.lra. }
  destruct (filter _ v); [destruct H | simpl; lia].
Qed.

Lemma count_above_none (half : Q) (v : list Q) :
  (forall x, In x v -> x <= half) -> count_above half v = 0%nat.
Proof.
  intros H. unfold count_above. induction v as [|x v IH]; simpl; [reflexivity|].
  destruct (Qlt_le_dec 0 (x - half)) as [L | G].
  - exfalso. assert (Hx : x <= half) by (apply H; now left). Lqa.lra.
  - apply IH. intros y Hy. apply H. now right.
Qed.

(** Lines 466-473 on a patch with at least one pixel: the amplitude is the
    largest intensity, found at [(x_0, y_0)]; [dx] and [dy] count pixels of
    one row and one column, so they are at most the numbers of columns and
    of rows; both are at least 1 when the amplitude is positive and both are 0
    when it is not, so the seed width is then the root of 0. *)
Theorem seed_of_the_fit (data : image) (w : nat) :
  rectangular data w -> data <> [] -> (0 < w)%nat ->
  exists amplitude x_0 y_0 dx dy,
    half_max_extents data = Ok (amplitude, (x_0, y_0), (dx, dy)) /\
    (x_0 < length data)%nat /\ (y_0 < w)%nat /\
    SizeSearch.pixel data (x_0, y_0) == amplitude /\
    (forall r c, (r < length data)%nat -> (c < w)%nat ->
                 SizeSearch.pixel data (r, c) <= amplitude) /\
    (dx <= w)%nat /\ (dy <= length data)%nat /\
    (0 < amplitude -> (1 <= dx)%nat /\ (1 <= dy)%nat) /\
    (amplitude <= 0 -> dx = 0%nat /\ dy = 0%nat).
Proof.
  intros Hrect Hne Hw. unfold half_max_extents.
  assert (Hflat : length (ravel data) = (length data * w)%nat)
    by (apply length_concat_rect; assumption).
  assert (Hrows : (0 < length data)%nat) by (destruct data; [congruence | simpl; lia]).
  assert (Hflat_ne : ravel data <> []).
  { intros E. rewrite E in Hflat. simpl in Hflat. nia. }
  pose proof (list_max_spec (ravel data)) as Hmax.
  destruct (Estimator.list_max (ravel data)) as [amp|]; [|congruence].
  destruct Hmax as [Hamp_in Hamp_max].
  destruct (np_argmax_Q_spec (ravel data) Hflat_ne) as [k (Ek & Hk & Hkmax)].
  rewrite Ek. unfold Estimator.or_value_error, bind.
  assert (Hshape : shape data = (length data, w)).
  { unfold shape. f_equal. destruct data as [|row data]; [congruence|].
    simpl. now inversion Hrect. }
  rewrite Hshape. unfold unravel_index. cbn [fst snd].
  destruct (ravel_unravel w k Hw) as [Ekk Hmod].
  assert (Hdiv : (k / w < length data)%nat).
  { apply Nat.Div0.div_lt_upper_bound. rewrite Hflat in Hk. lia. }
  set (x_0 := (k / w)%nat) in *. set (y_0 := (k mod w)%nat) in *.
  assert (Hpix : forall r c, (r < length data)%nat -> (c < w)%nat ->
             SizeSearch.pixel data (r, c) = nth (r * w + c) (ravel data) 0).
  { intros r c Hr Hc. unfold SizeSearch.pixel, ravel. simpl.
    symmetry. now apply nth_concat_rect. }
  assert (Hle : forall r c, (r < length data)%nat -> (c < w)%nat ->
             SizeSearch.pixel data (r, c) <= amp).
  { intros r c Hr Hc. rewrite Hpix by assumption.
    apply Hamp_max, nth_In. rewrite Hflat. nia. }
  assert (Hpeak : SizeSearch.pixel data (x_0, y_0) == amp).
  { apply Qle_antisym; [now apply Hle|].
    rewrite Hpix by assumption. rewrite <- Ekk.
    destruct (In_nth _ _ 0 Hamp_in) as [j [Hj <-]]. now apply Hkmax. }
  assert (Hrow : length (nth x_0 data []) = w).
  { unfold rectangular in Hrect. rewrite Forall_forall in Hrect.
    apply Hrect, nth_In. exact Hdiv. }
  assert (Hrow_el : forall x, In x (nth x_0 data []) -> x <= amp).
  { intros x Hx. destruct (In_nth _ _ 0 Hx) as [c [Hc <-]].
    rewrite Hrow in Hc. now apply (Hle x_0 c). }
  assert (Hcol_el : forall x, In x (column y_0 data) -> x <= amp).
  { intros x Hx. unfold column in Hx. apply in_map_iff in Hx.
    destruct Hx as [row [<- Hin]].
    destruct (In_nth _ _ [] Hin) as [r [Hr <-]]. now apply (Hle r y_0). }
  assert (Hrow_peak : In (SizeSearch.pixel data (x_0, y_0)) (nth x_0 data [])).
  { unfold SizeSearch.pixel. simpl. apply nth_In. now rewrite Hrow. }
  assert (Hcol_peak : In (SizeSearch.pixel data (x_0, y_0)) (column y_0 data)).
  { unfold column, SizeSearch.pixel. simpl.
    apply in_map_iff. exists (nth x_0 data []). split; [reflexivity|].
    now apply nth_In. }
  exists amp, x_0, y_0, (count_above (amp / 2) (nth x_0 data [])),
         (count_above (amp / 2) (column y_0 data)).
  split; [reflexivity|]. split; [exact Hdiv|]. split; [exact Hmod|].
  split; [exact Hpeak|]. split; [exact Hle|].
  split; [rewrite <- Hrow; apply count_above_le|].
  split.
  { eapply Nat.le_trans; [apply count_above_le|]. unfold column. now rewrite length_map. }
  assert (Ehalf : amp / 2 == amp * (1 # 2)) by reflexivity.
  assert (Hhalf : 0 < amp -> amp / 2 < SizeSearch.pixel data (x_0, y_0)).
  { intros Hpos. rewrite Hpeak, Ehalf. Lqa.lra. }
  split.
  - intros Hpos. split.
    + apply (count_above_pos _ (SizeSearch.pixel data (x_0, y_0))); auto.
    + apply (count_above_pos _ (SizeSearch.pixel data (x_0, y_0))); auto.
  - intros Hnonpos.
    assert (Hhalf' : amp <= amp / 2) by (rewrite Ehalf; Lqa.lra).
    split; apply count_above_none; intros x Hx;
      (eapply Qle_trans; [|exact Hhalf']); auto.
Qed.

Lemma seed_of_the_fit_witness :
  rectangular ramp_image 4 /\ ramp_image <> [] /\ (0 < 4)%nat /\
  half_max_extents ramp_image = Ok (9, (1%nat, 1%nat), (4%nat, 2%nat)).
Proof.
  assert (H1 : rectangular ramp_image 4) by (repeat constructor).
  assert (H2 : ramp_image <> []) by discriminate.
  assert (H3 : (0 < 4)%nat) by lia.
  split; [exact H1|]. split; [exact H2|]. split; [exact H3|].
  destruct (seed_of_the_fit ramp_image 4 H1 H2 H3) as (a & x & y & dx & dy & E & _).
  reflexivity.
Defined.

End PatchFacts.

(** ** The fitter by the number of intensity levels *)

Module LevelsFacts.
Import Fitter Patch.










End LevelsFacts.

(** ** The ellipse search with too few fitted amplitudes *)

Module EllSearchMoreFacts.
Import MoreExamples.



End EllSearchMoreFacts.
